(** * External scanner of tree-sitter-cangjie

    A shallow embedding of [src/tree-sitter-cangjie/src/scanner.c]: the
    scanner state, its (de)serialization, and the [scan] entry point with
    its three blocks (newline, indentation, multi-line raw string).

    Conventions of the model
    - a C [int] is a [Z]; widths and counters are assumed to stay below
      2^31 (signed overflow is undefined in C and is not modelled);
    - the array [indent_stack[100]] is a [list Z] of length 100; every
      access goes through [stack_get] / [stack_set], which report an index
      outside [0, 100) as [OutOfBounds] instead of performing it;
    - the host cursor [TSLexer] is the remaining input (code points), the
      column of the cursor and the characters consumed by the current
      call; [lookahead] is 0 at the end of the input. *)

From Stdlib Require Import ZArith NArith Lia Bool.
From Stdlib Require Import Init.Byte Strings.Byte.
From stdpp Require Import base list.

Local Open Scope Z_scope.

(** ** Results of memory accesses *)

Inductive region := IndentStack | Buffer.

Inductive result (A : Type) : Type :=
  | Ok (a : A)
  | OutOfBounds (r : region) (index : Z).
Arguments Ok {A} a.
Arguments OutOfBounds {A} r index.

#[global] Instance result_ret : MRet result := fun A a => Ok a.
#[global] Instance result_bind : MBind result := fun A B f m =>
  match m with
  | Ok a => f a
  | OutOfBounds r i => OutOfBounds r i
  end.

(** ** Data model *)

Inductive TokenType :=
  | MULTI_LINE_RAW_STRING_LITERAL
  | INDENT
  | DEDENT
  | NEWLINE.

Record Scanner := mkScanner {
  hash_count : Z;
  indent_stack : list Z;
  indent_stack_size : Z;
  current_indent : Z;
  at_line_start : bool
}.

Definition STACK_CAPACITY : Z := 100.

Definition set_at_line_start (s : Scanner) (b : bool) : Scanner :=
  mkScanner (hash_count s) (indent_stack s) (indent_stack_size s)
            (current_indent s) b.

Definition set_current_indent (s : Scanner) (n : Z) : Scanner :=
  mkScanner (hash_count s) (indent_stack s) (indent_stack_size s)
            n (at_line_start s).

Definition set_indent_stack_size (s : Scanner) (n : Z) : Scanner :=
  mkScanner (hash_count s) (indent_stack s) n
            (current_indent s) (at_line_start s).

Definition set_indent_stack (s : Scanner) (l : list Z) : Scanner :=
  mkScanner (hash_count s) l (indent_stack_size s)
            (current_indent s) (at_line_start s).

Definition set_hash_count (s : Scanner) (n : Z) : Scanner :=
  mkScanner n (indent_stack s) (indent_stack_size s)
            (current_indent s) (at_line_start s).

(** [scanner->indent_stack[i]] as an rvalue. *)
Definition stack_get (s : Scanner) (i : Z) : result Z :=
  if (0 <=? i) && (i <? STACK_CAPACITY) then
    match indent_stack s !! Z.to_nat i with
    | Some v => Ok v
    | None => OutOfBounds IndentStack i
    end
  else OutOfBounds IndentStack i.

(** [scanner->indent_stack[i] = v]. *)
Definition stack_set (s : Scanner) (i : Z) (v : Z) : result Scanner :=
  if (0 <=? i) && (i <? STACK_CAPACITY) && (i <? Z.of_nat (length (indent_stack s))) then
    Ok (set_indent_stack s (<[Z.to_nat i := v]> (indent_stack s)))
  else OutOfBounds IndentStack i.

(** The live part of the array: entries [0 .. indent_stack_size - 1],
    bottom first. *)
Definition stack_of (s : Scanner) : list Z :=
  take (Z.to_nat (indent_stack_size s)) (indent_stack s).

(** [tree_sitter_cangjie_external_scanner_create]: only the first slot of
    the freshly allocated array is written; [uninit i] stands for whatever
    the allocator left in slot [i]. *)
Definition tree_sitter_cangjie_external_scanner_create (uninit : nat -> Z) : Scanner :=
  {| hash_count := 0;
     indent_stack := 0 :: map uninit (seq 1 99);
     indent_stack_size := 1;
     current_indent := 0;
     at_line_start := true |}.

Abbreviation create := tree_sitter_cangjie_external_scanner_create.

(** ** The host cursor

    Modelled from the spec: the host lexing interface ([TSLexer] of
    [tree_sitter/parser.h], an external collaborator of the scanner): a
    one-character lookahead, the current column, and [advance]. *)

Record TSLexer := mkLexer {
  input : list Z;
  column : N;
  token : list Z;
  result_symbol : option TokenType
}.

Definition start_lexer (text : list Z) (col : N) : TSLexer :=
  mkLexer text col [] None.

Definition lookahead (lx : TSLexer) : Z :=
  match input lx with
  | [] => 0
  | c :: _ => c
  end.

Definition get_column (lx : TSLexer) : Z := Z.of_N (column lx).

(** [lexer->advance(lexer, false)]: the column restarts after a line
    feed. *)
Definition advance (lx : TSLexer) : TSLexer :=
  match input lx with
  | [] => lx
  | c :: rest =>
      mkLexer rest (if c =? 10 then 0%N else N.succ (column lx))
              (token lx ++ [c]) (result_symbol lx)
  end.

Definition set_result_symbol (lx : TSLexer) (t : TokenType) : TSLexer :=
  mkLexer (input lx) (column lx) (token lx) (Some t).

(** ** The scan function *)

(** A block of [scan] either returns from the function or lets control
    continue with the next block. *)
Inductive flow :=
  | Return (b : bool) (s : Scanner) (lx : TSLexer)
  | Continue (s : Scanner) (lx : TSLexer).

(** Lines 109-116: the run of spaces and tabs. *)
Fixpoint skip_whitespace (fuel : nat) (lx : TSLexer) (indent : Z) : Z * TSLexer :=
  match fuel with
  | O => (indent, lx)
  | S fuel' =>
      if (lookahead lx =? 32) || (lookahead lx =? 9) then
        skip_whitespace fuel' (advance lx)
          (if lookahead lx =? 9 then indent + 4 else indent + 1)
      else (indent, lx)
  end.

(** Lines 142-144: pop while more than one entry is left and the top
    exceeds [indent]. *)
Fixpoint pop_loop (fuel : nat) (s : Scanner) (indent : Z) : result Scanner :=
  match fuel with
  | O => Ok s
  | S fuel' =>
      if indent_stack_size s >? 1 then
        top ← stack_get s (indent_stack_size s - 1);
        if top >? indent then
          pop_loop fuel' (set_indent_stack_size s (indent_stack_size s - 1)) indent
        else Ok s
      else Ok s
  end.

(** Lines 131-156: the comparison with the top of the stack. *)
Definition compare_indent (s : Scanner) (lx : TSLexer)
    (valid_symbols : TokenType -> bool) (indent : Z) : result flow :=
  previous_indent ← stack_get s (indent_stack_size s - 1);
  if (indent >? previous_indent) && valid_symbols INDENT then
    s ← stack_set s (indent_stack_size s) indent;
    let s := set_indent_stack_size s (indent_stack_size s + 1) in
    let s := set_current_indent s indent in
    let s := set_at_line_start s false in
    Ok (Return true s (set_result_symbol lx INDENT))
  else
    f ← (if (indent <? previous_indent) && valid_symbols DEDENT then
           s ← pop_loop (Z.to_nat (indent_stack_size s)) s indent;
           top ← stack_get s (indent_stack_size s - 1);
           if top =? indent then
             let s := set_current_indent s indent in
             let s := set_at_line_start s false in
             Ok (Return true s (set_result_symbol lx DEDENT))
           else Ok (Continue s lx)
         else Ok (Continue s lx));
    match f with
    | Return b s lx => Ok (Return b s lx)
    | Continue s lx =>
        let s := set_current_indent s indent in
        let s := set_at_line_start s false in
        Ok (Continue s lx)
    end.

(** Lines 106-156. *)
Definition scan_indentation (s : Scanner) (lx : TSLexer)
    (valid_symbols : TokenType -> bool) : result flow :=
  let '(indent, lx) := skip_whitespace (length (input lx)) lx 0 in
  if (lookahead lx =? 47) && (get_column lx =? indent) then
    Ok (Return false (set_at_line_start s false) lx)
  else if (lookahead lx =? 10) || (lookahead lx =? 13) || (lookahead lx =? 0) then
    Ok (Return false (set_at_line_start s false) lx)
  else compare_indent s lx valid_symbols indent.

(** Lines 162-165: the opening run of ['#']. *)
Fixpoint count_hashes (fuel : nat) (lx : TSLexer) (hash_count : Z) : Z * TSLexer :=
  match fuel with
  | O => (hash_count, lx)
  | S fuel' =>
      if lookahead lx =? 35 then count_hashes fuel' (advance lx) (hash_count + 1)
      else (hash_count, lx)
  end.

(** Lines 187-190: at most [hash_count] closing ['#']. *)
Fixpoint count_closing (fuel : nat) (lx : TSLexer) (closing_hash_count hash_count : Z)
    : Z * TSLexer :=
  match fuel with
  | O => (closing_hash_count, lx)
  | S fuel' =>
      if (lookahead lx =? 35) && (closing_hash_count <? hash_count) then
        count_closing fuel' (advance lx) (closing_hash_count + 1) hash_count
      else (closing_hash_count, lx)
  end.

(** Lines 181-199: the body; the boolean is [found_closing]. *)
Fixpoint scan_body (fuel : nat) (lx : TSLexer) (quote hash_count : Z) : bool * TSLexer :=
  match fuel with
  | O => (false, lx)
  | S fuel' =>
      if lookahead lx =? 0 then (false, lx)
      else if lookahead lx =? quote then
        let lx := advance lx in
        let '(closing_hash_count, lx) :=
          count_closing (Z.to_nat hash_count) lx 0 hash_count in
        if closing_hash_count =? hash_count then (true, lx)
        else scan_body fuel' lx quote hash_count
      else scan_body fuel' (advance lx) quote hash_count
  end.

(** Lines 159-205. The counter is a local of [scan]; the field
    [scanner->hash_count] is not touched. *)
Definition scan_raw_string (s : Scanner) (lx : TSLexer) : flow :=
  let '(hash_count, lx) := count_hashes (length (input lx)) lx 0 in
  if hash_count =? 0 then Return false s lx
  else if negb (lookahead lx =? 34) && negb (lookahead lx =? 39) then Return false s lx
  else
    let quote := lookahead lx in
    let lx := advance lx in
    let '(found_closing, lx) := scan_body (length (input lx)) lx quote hash_count in
    if found_closing then
      Return true s (set_result_symbol lx MULTI_LINE_RAW_STRING_LITERAL)
    else Continue s lx.

(** Lines 158-208: the raw-string block and the final decline. *)
Definition scan_tail (s : Scanner) (lx : TSLexer) (valid_symbols : TokenType -> bool)
    : bool * Scanner * TSLexer :=
  match (if valid_symbols MULTI_LINE_RAW_STRING_LITERAL
         then scan_raw_string s lx else Continue s lx) with
  | Return b s lx => (b, s, lx)
  | Continue s lx => (false, set_at_line_start s false, lx)
  end.

(** [tree_sitter_cangjie_external_scanner_scan]. *)
Definition tree_sitter_cangjie_external_scanner_scan
    (s : Scanner) (lx : TSLexer) (valid_symbols : TokenType -> bool)
    : result (bool * Scanner * TSLexer) :=
  if valid_symbols NEWLINE && ((lookahead lx =? 10) || (lookahead lx =? 13)) then
    let lx := set_result_symbol lx NEWLINE in
    let lx := advance lx in
    let lx := if (lookahead lx =? 10) && (get_column lx =? 0) then advance lx else lx in
    Ok (true, set_at_line_start s true, lx)
  else
    f ← (if at_line_start s && (valid_symbols INDENT || valid_symbols DEDENT)
         then scan_indentation s lx valid_symbols
         else Ok (Continue s lx));
    match f with
    | Return b s lx => Ok (b, s, lx)
    | Continue s lx => Ok (scan_tail s lx valid_symbols)
    end.

Abbreviation scan := tree_sitter_cangjie_external_scanner_scan.

(** ** Serialization *)

(** Bytes of the buffer.  [char_of_int] is the conversion of an [int] to
    [char] on assignment (the low eight bits). *)
Definition Z_of_byte (b : byte) : Z := Z.of_N (Byte.to_N b).

Definition byte_of_Z (z : Z) : byte :=
  match Byte.of_N (Z.to_N (z mod 256)) with
  | Some b => b
  | None => x00
  end.

Definition char_of_int (x : Z) : byte := byte_of_Z x.

Definition char_of_bool (b : bool) : byte := if b then x01 else x00.

(** [sizeof(int)] and the object representation of an [int]: four bytes,
    two's complement, least significant byte first. *)
Definition SIZEOF_INT : Z := 4.

Definition bytes_of_int (x : Z) : list byte :=
  [byte_of_Z x; byte_of_Z (x / 256); byte_of_Z (x / 65536); byte_of_Z (x / 16777216)].

Definition int_of_bytes (b0 b1 b2 b3 : byte) : Z :=
  let u := Z_of_byte b0 + 256 * Z_of_byte b1 + 65536 * Z_of_byte b2
           + 16777216 * Z_of_byte b3 in
  if u <? 2147483648 then u else u - 4294967296.

(** Arithmetic in [size_t] (64 bits). *)
Definition size_t (x : Z) : Z := x mod 18446744073709551616.

(** [tree_sitter_cangjie_external_scanner_serialize]: the bytes written to
    [buffer]; the returned [offset] is their number.  The last [memcpy]
    reads [indent_stack_size] entries of the array. *)
Definition tree_sitter_cangjie_external_scanner_serialize (s : Scanner)
    : result (list byte) :=
  if (0 <=? indent_stack_size s) && (indent_stack_size s <=? STACK_CAPACITY)
     && (STACK_CAPACITY <=? Z.of_nat (length (indent_stack s))) then
    Ok ([char_of_int (hash_count s); char_of_int (indent_stack_size s)]
        ++ bytes_of_int (current_indent s)
        ++ [char_of_bool (at_line_start s)]
        ++ concat (map bytes_of_int (stack_of s)))
  else OutOfBounds IndentStack (indent_stack_size s).

Abbreviation serialize := tree_sitter_cangjie_external_scanner_serialize.

Section Deserialize.

(** Whether plain [char] is a signed type is left to the platform. *)
Variable char_is_signed : bool.

Definition int_of_char (b : byte) : Z :=
  if char_is_signed && (128 <=? Z_of_byte b) then Z_of_byte b - 256
  else Z_of_byte b.

Definition bool_of_char (b : byte) : bool := negb (int_of_char b =? 0).

(** [buffer[i]] as an rvalue. *)
Definition buffer_get (buffer : list byte) (i : Z) : result byte :=
  if i <? 0 then OutOfBounds Buffer i
  else
    match buffer !! Z.to_nat i with
    | Some b => Ok b
    | None => OutOfBounds Buffer i
    end.

(** An [int] copied out of the buffer at [offset]. *)
Definition buffer_get_int (buffer : list byte) (offset : Z) : result Z :=
  b0 ← buffer_get buffer offset;
  b1 ← buffer_get buffer (offset + 1);
  b2 ← buffer_get buffer (offset + 2);
  b3 ← buffer_get buffer (offset + 3);
  Ok (int_of_bytes b0 b1 b2 b3).

(** [memcpy(scanner->indent_stack, buffer + offset, n * sizeof(int))],
    one entry after the other. *)
Fixpoint copy_stack (n : nat) (s : Scanner) (buffer : list byte) (offset : Z) (i : Z)
    : result Scanner :=
  match n with
  | O => Ok s
  | S n' =>
      v ← buffer_get_int buffer (offset + SIZEOF_INT * i);
      s ← stack_set s i v;
      copy_stack n' s buffer offset (i + 1)
  end.

(** [tree_sitter_cangjie_external_scanner_deserialize]. *)
Definition tree_sitter_cangjie_external_scanner_deserialize
    (s : Scanner) (buffer : list byte) (length : Z) : result Scanner :=
  let offset := 0 in
  '(s, offset) ← (if length >? 0 then
                    c ← buffer_get buffer offset;
                    Ok (set_hash_count s (int_of_char c), offset + 1)
                  else Ok (s, offset));
  '(s, offset) ← (if length >? offset then
                    c ← buffer_get buffer offset;
                    Ok (set_indent_stack_size s (int_of_char c), offset + 1)
                  else Ok (s, offset));
  '(s, offset) ← (if length >? offset + SIZEOF_INT then
                    v ← buffer_get_int buffer offset;
                    Ok (set_current_indent s v, offset + SIZEOF_INT)
                  else Ok (s, offset));
  '(s, offset) ← (if length >? offset then
                    c ← buffer_get buffer offset;
                    Ok (set_at_line_start s (bool_of_char c), offset + 1)
                  else Ok (s, offset));
  if length >? size_t (offset + size_t (indent_stack_size s) * SIZEOF_INT) then
    if indent_stack_size s <? 0 then OutOfBounds Buffer (offset + length)
    else copy_stack (Z.to_nat (indent_stack_size s)) s buffer offset 0
  else Ok s.

End Deserialize.

Abbreviation deserialize := tree_sitter_cangjie_external_scanner_deserialize.

(** ** The host loop

    Modelled from the spec: the host's lexing loop (external to the
    sources).  The host calls [scan] at every lexing decision.  When the call
    produces a token the consumed characters are committed; when it
    declines, the cursor goes back to where the call started and the
    grammar's own lexer takes the next ordinary token.  Here every
    character other than a blank or a line terminator is such a token, and
    blanks in front of it are skipped. *)

Definition is_blank (c : Z) : bool := (c =? 32) || (c =? 9).
Definition is_terminator (c : Z) : bool := (c =? 10) || (c =? 13).

Fixpoint ordinary_token (text : list Z) (col : N) : option (list Z * N) :=
  match text with
  | [] => None
  | c :: rest =>
      if is_blank c then ordinary_token rest (N.succ col)
      else if is_terminator c then None
      else Some (rest, N.succ col)
  end.

Inductive event :=
  | Emitted (t : TokenType) (stack : list Z)
  | Declined (stack : list Z).

Fixpoint lex_session (fuel : nat) (s : Scanner) (text : list Z) (col : N)
    (valid_symbols : TokenType -> bool) : result (list event) :=
  match fuel with
  | O => Ok []
  | S fuel' =>
      r ← scan s (start_lexer text col) valid_symbols;
      match r with
      | (true, s', lx) =>
          match result_symbol lx with
          | Some t =>
              rest ← lex_session fuel' s' (input lx) (column lx) valid_symbols;
              Ok (Emitted t (stack_of s') :: rest)
          | None => Ok []
          end
      | (false, s', _) =>
          match ordinary_token text col with
          | Some (text', col') =>
              rest ← lex_session fuel' s' text' col' valid_symbols;
              Ok (Declined (stack_of s') :: rest)
          | None => Ok [Declined (stack_of s')]
          end
      end
  end.

Definition tokens_of (l : list event) : list TokenType :=
  omap (fun e => match e with Emitted t _ => Some t | Declined _ => None end) l.

Definition indentation_only (t : TokenType) : bool :=
  match t with
  | MULTI_LINE_RAW_STRING_LITERAL => false
  | _ => true
  end.

Definition all_valid (t : TokenType) : bool := true.

Definition spaces (n : nat) : list Z := replicate n 32.

(** Scenario A: lines indented by 0, 2, 2, 4 and 0 spaces. *)
Definition scenario_A : list Z :=
  [97; 10] ++ spaces 2 ++ [98; 10] ++ spaces 2 ++ [99; 10]
  ++ spaces 4 ++ [100; 10] ++ [101].

Definition zero_mem : nat -> Z := fun _ => 0.

(** The state after 99 successive indentations: the array is full. *)
Definition full_scanner : Scanner :=
  {| hash_count := 0;
     indent_stack := map Z.of_nat (seq 0 100);
     indent_stack_size := 100;
     current_indent := 99;
     at_line_start := true |}.

(** Lines indented by 0, 1, 2, ..., [n - 1] spaces. *)
Definition staircase (n : nat) : list Z :=
  flat_map (fun i => spaces i ++ [120; 10]) (seq 0 n).

(** ** Invariant of the indentation stack *)

Definition increasing (l : list Z) : Prop :=
  forall (i j : nat) (x y : Z), (i < j)%nat -> l !! i = Some x -> l !! j = Some y -> x < y.

Definition stack_bounds (s : Scanner) : Prop :=
  length (indent_stack s) = 100%nat /\ 1 <= indent_stack_size s <= STACK_CAPACITY.

Definition stack_inv (s : Scanner) : Prop :=
  stack_bounds s /\ stack_of s !! 0%nat = Some 0 /\ increasing (stack_of s).

(** A scan call reaches the comparison of line 131 with [indent = w] and
    the cursor [lx1] behind the blanks. *)
Definition measures (s : Scanner) (lx : TSLexer) (valid_symbols : TokenType -> bool)
    (w : Z) (lx1 : TSLexer) : Prop :=
  valid_symbols NEWLINE && ((lookahead lx =? 10) || (lookahead lx =? 13)) = false
  /\ at_line_start s = true
  /\ valid_symbols INDENT || valid_symbols DEDENT = true
  /\ skip_whitespace (length (input lx)) lx 0 = (w, lx1)
  /\ (lookahead lx1 =? 47) && (get_column lx1 =? w) = false
  /\ (lookahead lx1 =? 10) || (lookahead lx1 =? 13) || (lookahead lx1 =? 0) = false.

(** Successive scan calls on one scanner. *)
Fixpoint scan_calls (s : Scanner) (calls : list (TSLexer * (TokenType -> bool)))
    : result Scanner :=
  match calls with
  | [] => Ok s
  | (lx, valid_symbols) :: calls' =>
      r ← scan s lx valid_symbols;
      scan_calls r.1.2 calls'
  end.

(** The width of the blanks in front of the cursor. *)
Definition leading_width (lx : TSLexer) : Z :=
  (skip_whitespace (length (input lx)) lx 0).1.

(** A quote followed by [n] marker characters somewhere in [l]. *)
Fixpoint starts_with_hashes (n : nat) (l : list Z) : bool :=
  match n with
  | O => true
  | S n' =>
      match l with
      | c :: l' => (c =? 35) && starts_with_hashes n' l'
      | [] => false
      end
  end.

Fixpoint has_close (q : Z) (n : nat) (l : list Z) : bool :=
  match l with
  | [] => false
  | c :: l' => ((c =? q) && starts_with_hashes n l') || has_close q n l'
  end.

Definition hashes (n : nat) : list Z := replicate n 35.

(** Scanners with two and three open levels, at the start of a line. *)
Definition two_level_scanner : Scanner :=
  {| hash_count := 0;
     indent_stack := 0 :: 4 :: replicate 98 0;
     indent_stack_size := 2;
     current_indent := 4;
     at_line_start := true |}.

Definition three_level_scanner : Scanner :=
  {| hash_count := 0;
     indent_stack := 0 :: 4 :: 8 :: replicate 97 0;
     indent_stack_size := 3;
     current_indent := 8;
     at_line_start := true |}.

(** Two raw strings with one marker on each side: the body [a] between
    double quotes (code 34), and the body [x] between single quotes
    (code 39). *)
Definition raw_a : list Z := [35; 34; 97; 34; 35].

(** The last event of a session that ran to its end. *)
Definition last_event (r : result (list event)) : option event :=
  match r with
  | Ok events => last events
  | OutOfBounds _ _ => None
  end.

(** The tokens of a session that ran to its end. *)
Definition session_tokens (r : result (list event)) : option (list TokenType) :=
  match r with
  | Ok events => Some (tokens_of events)
  | OutOfBounds _ _ => None
  end.

(** The scanner after the first INDENT of scenario A. *)
Definition indented_scanner : Scanner :=
  {| hash_count := 0;
     indent_stack := 0 :: 2 :: replicate 98 0;
     indent_stack_size := 2;
     current_indent := 2;
     at_line_start := false |}.

(** [k] calls of [advance]. *)
Fixpoint advance_n (k : nat) (lx : TSLexer) : TSLexer :=
  match k with
  | O => lx
  | S k' => advance_n k' (advance lx)
  end.

(** A literal with one marker on each side, double quotes, and the body
    [a], quote, two markers, [b]. *)
Definition raw_long_run : list Z := [35; 34; 97; 34; 35; 35; 98; 34; 35].

(** A scanner in the middle of a line. *)
Definition mid_line_scanner : Scanner := set_at_line_start (create zero_mem) false.

(** Scenario B: two markers, double quotes, and a body with doubled
    quotes and a quote followed by a single marker. *)
Definition scenario_B_body : list Z :=
  [104; 101; 32; 115; 97; 105; 100; 32; 34; 34; 104; 105; 34; 34; 35].

Definition scenario_B : list Z :=
  hashes 2 ++ 34 :: scenario_B_body ++ 34 :: hashes 2 ++ [].

(** The next character, if any, is not a marker. *)
Definition no_hash_ahead (l : list Z) : Prop := head l <> Some 35.

(** Calls that take a fresh scanner to the example scanners: a line with
    deeper indentation (INDENT), then the end of that line (NEWLINE). *)
Definition indent_call (width : nat) : TSLexer * (TokenType -> bool) :=
  (start_lexer (spaces width ++ [120]) 0, indentation_only).

Definition newline_call (col : N) : TSLexer * (TokenType -> bool) :=
  (start_lexer [10] col, indentation_only).

Definition staircase_calls : list (TSLexer * (TokenType -> bool)) :=
  flat_map (fun i => [indent_call i; newline_call (N.of_nat (S i))]) (seq 1 99).

(** The width line 109-116 gives to a run of blanks, and its tabs. *)
Fixpoint blank_width (ws : list Z) : Z :=
  match ws with
  | [] => 0
  | c :: ws' => (if c =? 9 then 4 else 1) + blank_width ws'
  end.

Fixpoint tab_count (ws : list Z) : Z :=
  match ws with
  | [] => 0
  | c :: ws' => (if c =? 9 then 1 else 0) + tab_count ws'
  end.

(** The character under the cursor when [l] is what is left of the input. *)
Definition first_char (l : list Z) : Z :=
  match l with
  | [] => 0
  | c :: _ => c
  end.

(** The scanner and the cursor a block hands on. *)
Definition flow_state (f : flow) : Scanner :=
  match f with
  | Return _ s _ => s
  | Continue s _ => s
  end.

Definition flow_lexer (f : flow) : TSLexer :=
  match f with
  | Return _ _ lx => lx
  | Continue _ lx => lx
  end.



(** A literal whose body holds a NUL. *)
Definition raw_nul : list Z := [35; 34; 0; 34; 35].

(** * Properties *)

(** ** Bytes *)

Lemma Z_of_byte_range (b : byte) : 0 <= Z_of_byte b < 256.
Proof.
  unfold Z_of_byte. pose proof (Byte.to_N_bounded b) as H. lia.
Qed.

Lemma Z_of_byte_of_Z (z : Z) : Z_of_byte (byte_of_Z z) = z mod 256.
Proof.
  unfold Z_of_byte, byte_of_Z.
  assert (Hr : 0 <= z mod 256 < 256) by (apply Z.mod_pos_bound; lia).
  destruct (Byte.of_N (Z.to_N (z mod 256))) as [b|] eqn:E.
  - apply Byte.to_of_N in E. rewrite E. lia.
  - apply Byte.of_N_None_iff in E. lia.
Qed.

(** ** The cursor *)

Lemma lookahead_cons (c : Z) (rest : list Z) col tok r :
  lookahead (mkLexer (c :: rest) col tok r) = c.
Proof. reflexivity. Qed.

Lemma advance_cons (c : Z) (rest : list Z) col tok r :
  advance (mkLexer (c :: rest) col tok r)
  = mkLexer rest (if c =? 10 then 0%N else N.succ col) (tok ++ [c]) r.
Proof. reflexivity. Qed.

Lemma advance_length (lx : TSLexer) :
  (length (input (advance lx)) <= length (input lx))%nat.
Proof. destruct lx as [[|c rest] col tok r]; simpl; lia. Qed.

Lemma advance_length_lt (lx : TSLexer) :
  lookahead lx <> 0 -> (length (input (advance lx)) < length (input lx))%nat.
Proof.
  destruct lx as [[|c rest] col tok r]; simpl; intros H; [now elim H | lia].
Qed.

Lemma advance_result_symbol (lx : TSLexer) :
  result_symbol (advance lx) = result_symbol lx.
Proof. destruct lx as [[|c rest] col tok r]; reflexivity. Qed.

(** ** The loops leave by their own condition *)

Lemma skip_whitespace_exit (fuel : nat) (lx : TSLexer) (indent : Z) :
  (length (input lx) <= fuel)%nat ->
  let lx' := (skip_whitespace fuel lx indent).2 in
  (lookahead lx' =? 32) || (lookahead lx' =? 9) = false.
Proof.
  revert lx indent. induction fuel as [|fuel IH]; intros lx indent Hlen; simpl.
  - destruct lx as [[|c rest] col tok r]; simpl in *; [reflexivity | lia].
  - destruct ((lookahead lx =? 32) || (lookahead lx =? 9)) eqn:E; simpl; [|exact E].
    apply IH.
    assert (lookahead lx <> 0) by (intros H0; rewrite H0 in E; discriminate).
    pose proof (advance_length_lt lx H). lia.
Qed.

Lemma skip_whitespace_nonneg (fuel : nat) (lx : TSLexer) (indent : Z) :
  0 <= indent -> 0 <= (skip_whitespace fuel lx indent).1.
Proof.
  revert lx indent. induction fuel as [|fuel IH]; intros lx indent H; simpl; [exact H|].
  destruct ((lookahead lx =? 32) || (lookahead lx =? 9)); simpl; [|exact H].
  apply IH. destruct (lookahead lx =? 9); lia.
Qed.


Lemma count_hashes_exit (fuel : nat) (lx : TSLexer) (acc : Z) :
  (length (input lx) <= fuel)%nat ->
  (lookahead (count_hashes fuel lx acc).2 =? 35) = false.
Proof.
  revert lx acc. induction fuel as [|fuel IH]; intros lx acc Hlen; simpl.
  - destruct lx as [[|c rest] col tok r]; simpl in *; [reflexivity | lia].
  - destruct (lookahead lx =? 35) eqn:E; simpl; [|exact E].
    apply IH.
    assert (lookahead lx <> 0) by (intros H0; rewrite H0 in E; discriminate).
    pose proof (advance_length_lt lx H). lia.
Qed.

Lemma count_closing_exit (fuel : nat) (lx : TSLexer) (c n : Z) :
  (Z.to_nat (n - c) <= fuel)%nat ->
  let r := count_closing fuel lx c n in
  (lookahead r.2 =? 35) && (r.1 <? n) = false.
Proof.
  revert lx c. induction fuel as [|fuel IH]; intros lx c Hfuel; simpl.
  - replace (c <? n) with false by (symmetry; apply Z.ltb_ge; lia).
    apply andb_false_r.
  - destruct ((lookahead lx =? 35) && (c <? n)) eqn:E; simpl; [|exact E].
    apply IH. lia.
Qed.

Lemma count_closing_length (fuel : nat) (lx : TSLexer) (c n : Z) :
  (length (input (count_closing fuel lx c n).2) <= length (input lx))%nat.
Proof.
  revert lx c. induction fuel as [|fuel IH]; intros lx c; simpl; [lia|].
  destruct ((lookahead lx =? 35) && (c <? n)); simpl; [|lia].
  pose proof (IH (advance lx) (c + 1)). pose proof (advance_length lx). lia.
Qed.

(** When the body loop gives up, the cursor is at the end of the input
    (or at a NUL): the fuel never cuts the loop short. *)
Lemma scan_body_exit (fuel : nat) (lx lx' : TSLexer) (quote n : Z) :
  (length (input lx) <= fuel)%nat ->
  scan_body fuel lx quote n = (false, lx') ->
  lookahead lx' = 0.
Proof.
  revert lx. induction fuel as [|fuel IH]; intros lx Hlen; simpl.
  - intros [= <-]. destruct lx as [[|c rest] col tok r]; simpl in *; [reflexivity | lia].
  - destruct (Z.eqb_spec (lookahead lx) 0) as [H0|H0]; [intros [= <-]; exact H0|].
    pose proof (advance_length_lt lx H0) as Hadv.
    destruct (lookahead lx =? quote).
    + pose proof (count_closing_length (Z.to_nat n) (advance lx) 0 n) as Hcl.
      destruct (count_closing (Z.to_nat n) (advance lx) 0 n) as [k lx1]. simpl in Hcl.
      destruct (k =? n); [discriminate|]. apply IH. lia.
    + apply IH. lia.
Qed.

(** ** Accesses to the array *)

Lemma stack_get_Ok (s : Scanner) (i v : Z) :
  stack_get s i = Ok v <->
  0 <= i < STACK_CAPACITY /\ indent_stack s !! Z.to_nat i = Some v.
Proof.
  unfold stack_get, STACK_CAPACITY.
  destruct (Z.leb_spec 0 i), (Z.ltb_spec i 100); simpl;
    try (split; [discriminate | lia]).
  destruct (indent_stack s !! Z.to_nat i) as [x|];
    split; try discriminate; try (intros [_ ?]; discriminate).
  - intros [= ->]. split; [lia | reflexivity].
  - intros [_ [= ->]]. reflexivity.
Qed.

Lemma stack_get_in_bounds (s : Scanner) (i : Z) :
  length (indent_stack s) = 100%nat -> 0 <= i < STACK_CAPACITY ->
  exists v, stack_get s i = Ok v /\ indent_stack s !! Z.to_nat i = Some v.
Proof.
  unfold STACK_CAPACITY. intros Hlen Hi.
  destruct (lookup_lt_is_Some_2 (indent_stack s) (Z.to_nat i)) as [v Hv]; [lia|].
  exists v. split; [|exact Hv]. apply stack_get_Ok. unfold STACK_CAPACITY. auto.
Qed.

Lemma stack_set_full (s : Scanner) (v : Z) :
  indent_stack_size s = STACK_CAPACITY ->
  stack_set s (indent_stack_size s) v = OutOfBounds IndentStack STACK_CAPACITY.
Proof.
  intros ->. unfold stack_set, STACK_CAPACITY. reflexivity.
Qed.

Lemma stack_set_Ok (s : Scanner) (i v : Z) :
  length (indent_stack s) = 100%nat -> 0 <= i < STACK_CAPACITY ->
  stack_set s i v = Ok (set_indent_stack s (<[Z.to_nat i := v]> (indent_stack s))).
Proof.
  unfold stack_set, STACK_CAPACITY. intros -> Hi.
  destruct (Z.leb_spec 0 i), (Z.ltb_spec i 100), (Z.ltb_spec i (Z.of_nat 100));
    try lia; reflexivity.
Qed.

Lemma stack_of_lookup (s : Scanner) (i : nat) :
  (i < Z.to_nat (indent_stack_size s))%nat ->
  stack_of s !! i = indent_stack s !! i.
Proof. intros H. unfold stack_of. by rewrite lookup_take_lt. Qed.

Lemma stack_of_length (s : Scanner) :
  stack_bounds s -> length (stack_of s) = Z.to_nat (indent_stack_size s).
Proof.
  intros [Hlen Hsz]. unfold stack_of, STACK_CAPACITY in *.
  rewrite length_take. lia.
Qed.

(** The pop loop stops at the first entry, from the top, that does not
    exceed [w], or at the bottom. *)
Lemma pop_loop_spec (fuel : nat) (s : Scanner) (w : Z) :
  stack_bounds s -> (Z.to_nat (indent_stack_size s) <= fuel)%nat ->
  exists k,
    pop_loop fuel s w = Ok (set_indent_stack_size s k)
    /\ 1 <= k <= indent_stack_size s
    /\ (forall i v, k <= i < indent_stack_size s ->
                    indent_stack s !! Z.to_nat i = Some v -> w < v)
    /\ (k = 1 \/ exists v, indent_stack s !! Z.to_nat (k - 1) = Some v /\ v <= w).
Proof.
  revert s. induction fuel as [|fuel IH]; intros s Hb Hfuel.
  - destruct Hb as [_ Hsz]. lia.
  - pose proof Hb as [Hlen Hsz]. unfold STACK_CAPACITY in Hsz. simpl.
    destruct (Z.gtb_spec (indent_stack_size s) 1) as [Hgt|Hle].
    + destruct (stack_get_in_bounds s (indent_stack_size s - 1)) as (top & -> & Htop);
        [exact Hlen | unfold STACK_CAPACITY; lia |]. simpl.
      destruct (Z.gtb_spec top w) as [Hpop|Hkeep].
      * destruct (IH (set_indent_stack_size s (indent_stack_size s - 1)))
          as (k & Hk & Hk1 & Hk2 & Hk3).
        { split; simpl; [exact Hlen | unfold STACK_CAPACITY; lia]. }
        { simpl. lia. }
        simpl in *. exists k. split; [exact Hk|]. split; [lia|]. split; [|exact Hk3].
        intros i v Hi Hv.
        destruct (Z.eq_dec i (indent_stack_size s - 1)) as [->|Hne].
        -- rewrite Htop in Hv. injection Hv as <-. lia.
        -- apply (Hk2 i v); [lia | exact Hv].
      * exists (indent_stack_size s). destruct s; simpl in *.
        split; [reflexivity|]. split; [lia|]. split; [intros; lia|].
        right. exists top. split; [exact Htop | lia].
    + exists (indent_stack_size s). destruct s; simpl in *.
      split; [reflexivity|]. split; [lia|]. split; [intros; lia|]. left. lia.
Qed.

(** ** The blocks of [scan] *)

Lemma count_closing_result_symbol (fuel : nat) (lx : TSLexer) (c n : Z) :
  result_symbol (count_closing fuel lx c n).2 = result_symbol lx.
Proof.
  revert lx c. induction fuel as [|fuel IH]; intros lx c; simpl; [reflexivity|].
  destruct ((lookahead lx =? 35) && (c <? n)); simpl; [|reflexivity].
  rewrite IH. apply advance_result_symbol.
Qed.

(** The raw-string block never touches the scanner, and a token it
    reports is the raw-string token. *)
Lemma scan_raw_string_cases (s : Scanner) (lx : TSLexer) :
  (exists lx', scan_raw_string s lx = Return true s lx'
               /\ result_symbol lx' = Some MULTI_LINE_RAW_STRING_LITERAL)
  \/ (exists lx', scan_raw_string s lx = Return false s lx')
  \/ (exists lx', scan_raw_string s lx = Continue s lx').
Proof.
  unfold scan_raw_string.
  destruct (count_hashes (length (input lx)) lx 0) as [n lx1].
  destruct (n =? 0); [right; left; eauto|].
  destruct (negb (lookahead lx1 =? 34) && negb (lookahead lx1 =? 39));
    [right; left; eauto|].
  destruct (scan_body _ _ _ _) as [[|] lx2].
  - left. eexists. split; reflexivity.
  - right; right. eauto.
Qed.

Lemma scan_tail_spec (s : Scanner) (lx : TSLexer) (valid_symbols : TokenType -> bool) :
  exists b s' lx',
    scan_tail s lx valid_symbols = (b, s', lx')
    /\ (s' = s \/ s' = set_at_line_start s false)
    /\ (valid_symbols MULTI_LINE_RAW_STRING_LITERAL = false -> b = false /\ lx' = lx)
    /\ (b = true -> valid_symbols MULTI_LINE_RAW_STRING_LITERAL = true
                    /\ result_symbol lx' = Some MULTI_LINE_RAW_STRING_LITERAL).
Proof.
  unfold scan_tail. destruct (valid_symbols MULTI_LINE_RAW_STRING_LITERAL).
  - destruct (scan_raw_string_cases s lx) as [(lx' & -> & Hr)|[(lx' & ->)|(lx' & ->)]].
    + exists true, s, lx'. repeat split; auto; discriminate.
    + exists false, s, lx'. repeat split; auto; discriminate.
    + exists false, (set_at_line_start s false), lx'. repeat split; auto; discriminate.
  - exists false, (set_at_line_start s false), lx. repeat split; auto; discriminate.
Qed.



(** A call that measures a width goes on with the comparison. *)
Lemma scan_measures (s : Scanner) (lx lx1 : TSLexer)
    (valid_symbols : TokenType -> bool) (w : Z) :
  measures s lx valid_symbols w lx1 ->
  scan s lx valid_symbols =
    f ← compare_indent s lx1 valid_symbols w;
    match f with
    | Return b s lx => Ok (b, s, lx)
    | Continue s lx => Ok (scan_tail s lx valid_symbols)
    end.
Proof.
  intros (Hnl & Hals & Hv & Hskip & Hcomment & Hblank).
  unfold scan, scan_indentation. rewrite Hnl, Hals, Hv, Hskip. simpl.
  rewrite Hcomment, Hblank. reflexivity.
Qed.

Lemma measures_nonneg (s : Scanner) (lx lx1 : TSLexer)
    (valid_symbols : TokenType -> bool) (w : Z) :
  measures s lx valid_symbols w lx1 -> 0 <= w.
Proof.
  intros (_ & _ & _ & Hskip & _).
  pose proof (skip_whitespace_nonneg (length (input lx)) lx 0 ltac:(lia)) as H.
  rewrite Hskip in H. exact H.
Qed.

(** ** Lists of increasing widths *)

Lemma increasing_take (l : list Z) (n : nat) : increasing l -> increasing (take n l).
Proof.
  intros H i j x y Hij Hi Hj.
  apply lookup_take_Some in Hi as [Hi _]. apply lookup_take_Some in Hj as [Hj _].
  exact (H i j x y Hij Hi Hj).
Qed.

Lemma increasing_snoc (l : list Z) (x : Z) :
  increasing l -> (forall y, last l = Some y -> y < x) -> increasing (l ++ [x]).
Proof.
  intros Hinc Hlast i j a b Hij Hi Hj.
  assert (Hil : (i < length l)%nat).
  { apply lookup_lt_Some in Hj. rewrite length_app in Hj. simpl in Hj. lia. }
  rewrite lookup_app_l in Hi by exact Hil.
  destruct (decide (j < length l)%nat) as [Hjl|Hjl].
  - rewrite lookup_app_l in Hj by exact Hjl. exact (Hinc i j a b Hij Hi Hj).
  - rewrite lookup_app_r in Hj by lia.
    destruct (j - length l)%nat eqn:E; simpl in Hj; [|discriminate].
    injection Hj as <-.
    destruct (lookup_lt_is_Some_2 l (pred (length l))) as [y Hy]; [lia|].
    assert (y < x) by (apply Hlast; rewrite last_lookup; exact Hy).
    destruct (decide (i = pred (length l))) as [->|Hne].
    + rewrite Hy in Hi. injection Hi as <-. assumption.
    + assert (a < y) by (apply (Hinc i (pred (length l)) a y); [lia | assumption..]).
      lia.
Qed.

Lemma increasing_le (l : list Z) (i j : nat) (x y : Z) :
  increasing l -> (i <= j)%nat -> l !! i = Some x -> l !! j = Some y -> x <= y.
Proof.
  intros H Hij Hi Hj. destruct (decide (i = j)) as [->|Hne].
  - rewrite Hi in Hj. injection Hj as ->. lia.
  - assert (x < y) by (apply (H i j); [lia | assumption..]). lia.
Qed.

Lemma filter_le_split (w : Z) (l1 l2 : list Z) :
  Forall (fun x => x <= w) l1 -> Forall (fun x => w < x) l2 ->
  filter (fun x => x <= w) (l1 ++ l2) = l1.
Proof.
  intros H1 H2. induction H1 as [|x l1 Hx _ IH]; simpl.
  - induction H2 as [|y l2 Hy _ IH]; [reflexivity|].
    rewrite filter_cons_False by lia. exact IH.
  - rewrite filter_cons_True by exact Hx. by rewrite IH.
Qed.

(** ** The invariant holds initially and is kept by every call that
    returns *)

Lemma create_stack_of (uninit : nat -> Z) : stack_of (create uninit) = [0].
Proof. reflexivity. Qed.

Lemma create_stack_inv (uninit : nat -> Z) : stack_inv (create uninit).
Proof.
  split; [split|split].
  - reflexivity.
  - simpl. unfold STACK_CAPACITY. lia.
  - reflexivity.
  - rewrite create_stack_of. intros [|i] [|j] x y Hij Hi Hj; simpl in *;
      try lia; discriminate.
Qed.

Lemma stack_inv_frame (s s' : Scanner) :
  indent_stack s' = indent_stack s -> indent_stack_size s' = indent_stack_size s ->
  stack_inv s -> stack_inv s'.
Proof.
  unfold stack_inv, stack_bounds, stack_of. intros -> ->. tauto.
Qed.

Lemma scan_tail_frame (s : Scanner) (lx : TSLexer) (valid_symbols : TokenType -> bool) :
  indent_stack (scan_tail s lx valid_symbols).1.2 = indent_stack s
  /\ indent_stack_size (scan_tail s lx valid_symbols).1.2 = indent_stack_size s
  /\ current_indent (scan_tail s lx valid_symbols).1.2 = current_indent s.
Proof.
  destruct (scan_tail_spec s lx valid_symbols) as (b & s' & lx' & -> & [->| ->] & _);
    simpl; auto.
Qed.

Lemma compare_indent_stack_inv (s : Scanner) (lx : TSLexer)
    (valid_symbols : TokenType -> bool) (w : Z) (f : flow) :
  stack_inv s -> compare_indent s lx valid_symbols w = Ok f ->
  stack_inv (match f with Return _ s' _ => s' | Continue s' _ => s' end).
Proof.
  intros Hinv. pose proof Hinv as ([Hlen Hsz] & Hbot & Hinc).
  unfold STACK_CAPACITY in Hsz. unfold compare_indent.
  destruct (stack_get_in_bounds s (indent_stack_size s - 1)) as (top & -> & Htop);
    [exact Hlen | unfold STACK_CAPACITY; lia |]. simpl.
  destruct ((w >? top) && valid_symbols INDENT) eqn:Hpush.
  - (* push *)
    apply andb_prop in Hpush as [Hgt _]. apply Z.gtb_lt in Hgt.
    unfold stack_set.
    destruct (Z.ltb_spec (indent_stack_size s) STACK_CAPACITY) as [Hroom|Hfull];
      unfold STACK_CAPACITY in *.
    2:{ replace (0 <=? indent_stack_size s) with true by (symmetry; apply Z.leb_le; lia).
        simpl. discriminate. }
    replace (0 <=? indent_stack_size s) with true by (symmetry; apply Z.leb_le; lia).
    replace (indent_stack_size s <? Z.of_nat (length (indent_stack s))) with true
      by (symmetry; apply Z.ltb_lt; lia).
    simpl. intros [= <-].
    assert (Hview : stack_of
              (set_at_line_start (set_current_indent (set_indent_stack_size
                 (set_indent_stack s (<[Z.to_nat (indent_stack_size s) := w]> (indent_stack s)))
                 (indent_stack_size s + 1)) w) false)
            = stack_of s ++ [w]).
    { unfold stack_of; simpl.
      replace (Z.to_nat (indent_stack_size s + 1)) with (S (Z.to_nat (indent_stack_size s)))
        by lia.
      rewrite (take_S_r _ _ w) by (apply list_lookup_insert_eq; lia).
      by rewrite take_insert_ge by lia. }
    split; [split|split].
    + simpl. by rewrite length_insert.
    + simpl. unfold STACK_CAPACITY. lia.
    + rewrite Hview. by apply lookup_app_l_Some.
    + rewrite Hview. apply increasing_snoc; [exact Hinc|].
      intros y Hy. rewrite last_lookup in Hy.
      rewrite stack_of_length in Hy by (split; [assumption | unfold STACK_CAPACITY; lia]).
      rewrite stack_of_lookup in Hy by lia.
      replace (pred (Z.to_nat (indent_stack_size s)))
        with (Z.to_nat (indent_stack_size s - 1)) in Hy by lia.
      rewrite Htop in Hy. injection Hy as <-. exact Hgt.
  - destruct ((w <? top) && valid_symbols DEDENT) eqn:Hpop.
    + (* pop *)
      destruct (pop_loop_spec (Z.to_nat (indent_stack_size s)) s w)
        as (k & -> & Hk & _); [split; [assumption | unfold STACK_CAPACITY; lia] | lia |].
      simpl.
      assert (Hk_inv : forall s', indent_stack s' = indent_stack s ->
                 indent_stack_size s' = k -> stack_inv s').
      { intros s' Ha Hs. unfold stack_inv, stack_bounds, stack_of. rewrite Ha, Hs.
        split; [split; [assumption | unfold STACK_CAPACITY; lia]|].
        assert (Htk : take (Z.to_nat k) (indent_stack s) = take (Z.to_nat k) (stack_of s)).
        { unfold stack_of. rewrite take_take. f_equal. lia. }
        rewrite Htk. split.
        - rewrite lookup_take_lt by lia. exact Hbot.
        - by apply increasing_take. }
      destruct (stack_get_in_bounds (set_indent_stack_size s k) (k - 1)) as (v & -> & _);
        [exact Hlen | unfold STACK_CAPACITY; lia |]. simpl.
      destruct (v =? w); simpl; intros [= <-]; by apply Hk_inv.
    + simpl. intros [= <-]. by apply (stack_inv_frame s).
Qed.

Lemma scan_preserves_stack_inv (s s' : Scanner) (lx lx' : TSLexer)
    (valid_symbols : TokenType -> bool) (b : bool) :
  stack_inv s -> scan s lx valid_symbols = Ok (b, s', lx') -> stack_inv s'.
Proof.
  intros Hinv. unfold scan.
  destruct (valid_symbols NEWLINE && _).
  { intros [= _ <- _]. by apply (stack_inv_frame s). }
  assert (Htail : forall s1 lx1, stack_inv s1 ->
            Ok (scan_tail s1 lx1 valid_symbols) = Ok (b, s', lx') -> stack_inv s').
  { intros s1 lx1 H1 [= E].
    destruct (scan_tail_frame s1 lx1 valid_symbols) as (Ha & Hs & _).
    rewrite E in Ha, Hs. simpl in Ha, Hs. by apply (stack_inv_frame s1). }
  destruct (at_line_start s && _); simpl; [|by apply Htail].
  unfold scan_indentation.
  destruct (skip_whitespace _ _ _) as [w lx1].
  destruct ((lookahead lx1 =? 47) && _).
  { simpl. intros [= _ <- _]. by apply (stack_inv_frame s). }
  destruct ((lookahead lx1 =? 10) || _ || _).
  { simpl. intros [= _ <- _]. by apply (stack_inv_frame s). }
  destruct (compare_indent s lx1 valid_symbols w) as [f|] eqn:Hcmp; simpl; [|discriminate].
  pose proof (compare_indent_stack_inv _ _ _ _ _ Hinv Hcmp) as Hf.
  destruct f as [b1 s1 lx2|s1 lx2]; [intros [= _ <- _]; exact Hf | by apply Htail].
Qed.

(** ** The example scanners are reachable *)

Lemma example_scanners_reachable :
  scan_calls (create zero_mem) staircase_calls = Ok full_scanner
  /\ scan_calls (create zero_mem) [indent_call 4; newline_call 5] = Ok two_level_scanner
  /\ scan_calls (create zero_mem)
       [indent_call 4; newline_call 5; indent_call 8; newline_call 9]
     = Ok three_level_scanner
  /\ scan_calls (create zero_mem) [(start_lexer [120] 0, indentation_only)]
     = Ok mid_line_scanner.
Proof.
  repeat split; vm_compute; reflexivity.
Qed.

(** ** Pushing onto a full stack *)

(** C3 (the code has no overflow check): when the array is full
    ([indent_stack_size = 100]) and a call at line start measures a width
    above the top with INDENT acceptable, the push is the store
    [indent_stack[100] = w], one slot past the end of the array. *)
Theorem push_on_full_stack_out_of_bounds
    (s : Scanner) (lx lx1 : TSLexer) (valid_symbols : TokenType -> bool) (w top : Z) :
  measures s lx valid_symbols w lx1 ->
  valid_symbols INDENT = true ->
  indent_stack_size s = STACK_CAPACITY ->
  stack_get s (indent_stack_size s - 1) = Ok top ->
  top < w ->
  scan s lx valid_symbols = OutOfBounds IndentStack STACK_CAPACITY.
Proof.
  intros Hm Hv Hfull Htop Hlt.
  rewrite (scan_measures _ _ _ _ _ Hm). unfold compare_indent.
  rewrite Htop. simpl.
  replace (w >? top) with true by (symmetry; apply Z.gtb_lt; lia).
  rewrite Hv. simpl. rewrite stack_set_full by exact Hfull. reflexivity.
Qed.

Lemma push_on_full_stack_witness :
  scan full_scanner (start_lexer (spaces 100 ++ [120]) 0) indentation_only
  = OutOfBounds IndentStack STACK_CAPACITY.
Proof.
  apply (push_on_full_stack_out_of_bounds full_scanner
           (start_lexer (spaces 100 ++ [120]) 0)
           (skip_whitespace 101 (start_lexer (spaces 100 ++ [120]) 0) 0).2
           indentation_only 100 99).
  - unfold measures. repeat apply conj; vm_compute; reflexivity.
  - reflexivity.
  - reflexivity.
  - reflexivity.
  - lia.
Defined.

(** C6 (same missing check as C3): a fresh scanner fed lines indented by
    0, 1, ..., 99 spaces ends with the full stack 0, 1, ..., 99; one more
    line, indented by 100 spaces, makes the scan call store past the end
    of the array, so that call does not hand back a stack at all. *)
Theorem staircase_breaks_invariant :
  last_event (lex_session 400 (create zero_mem) (staircase 100) 0 indentation_only)
  = Some (Declined (map Z.of_nat (seq 0 100)))
  /\ lex_session 400 (create zero_mem) (staircase 101) 0 indentation_only
     = OutOfBounds IndentStack STACK_CAPACITY.
Proof.
  split; vm_compute; reflexivity.
Qed.

(** ** Dedents that match no open level *)








(** ** Lines that continue the current block *)







(** ** Line terminators *)

(** C4 (the code merges on the column alone): with NEWLINE acceptable and
    two line feeds ahead, one call consumes both and emits a single
    NEWLINE token, although the character it consumed first was a line
    feed and not a carriage return.  After the first [advance] the
    lookahead is a line feed and the column is 0, which is all that line
    98 tests. *)
Theorem newline_takes_two_line_feeds
    (s : Scanner) (lx : TSLexer) (valid_symbols : TokenType -> bool) (rest : list Z) :
  valid_symbols NEWLINE = true ->
  input lx = 10 :: 10 :: rest ->
  exists lx',
    scan s lx valid_symbols = Ok (true, set_at_line_start s true, lx')
    /\ result_symbol lx' = Some NEWLINE
    /\ token lx' = token lx ++ [10; 10]
    /\ input lx' = rest.
Proof.
  intros Hv Hin. destruct lx as [inp col tok r]. simpl in Hin. subst inp.
  unfold scan. rewrite Hv, lookahead_cons.
  cbn [andb orb Z.eqb Pos.eqb]. unfold set_result_symbol.
  cbn [input column token result_symbol].
  rewrite advance_cons. cbn [Z.eqb Pos.eqb].
  rewrite lookahead_cons. unfold get_column. cbn [column andb Z.of_N Z.eqb Pos.eqb].
  rewrite advance_cons.
  eexists. split; [reflexivity|]. split; [reflexivity|].
  cbn [token input]. rewrite <- app_assoc. split; reflexivity.
Qed.

Lemma newline_takes_two_line_feeds_witness :
  exists lx',
    scan (create zero_mem) (start_lexer [10; 10; 120] 5) all_valid
    = Ok (true, set_at_line_start (create zero_mem) true, lx')
    /\ result_symbol lx' = Some NEWLINE
    /\ token lx' = token (start_lexer [10; 10; 120] 5) ++ [10; 10]
    /\ input lx' = [120].
Proof.
  apply (newline_takes_two_line_feeds (create zero_mem) (start_lexer [10; 10; 120] 5)
           all_valid [120]).
  - reflexivity.
  - reflexivity.
Defined.

(** ** Scenario A *)

(** C2 (as amended): on lines indented by 0, 2, 2, 4 and 0 spaces the
    scanner emits NEWLINE at each of the four line ends, INDENT at the
    rise to 2 and at the rise to 4, and one DEDENT for the return to 0:
    that call pops both open levels (stack 0 -> 0,2 -> 0,2,4 -> 0), and
    the next call at the same position declines. *)
Theorem scenario_A_events (uninit : nat -> Z) (fuel : nat) :
  (13 <= fuel)%nat ->
  lex_session fuel (create uninit) scenario_A 0 indentation_only
  = Ok [Declined [0]; Emitted NEWLINE [0];
        Emitted INDENT [0; 2]; Declined [0; 2]; Emitted NEWLINE [0; 2];
        Declined [0; 2]; Emitted NEWLINE [0; 2];
        Emitted INDENT [0; 2; 4]; Declined [0; 2; 4]; Emitted NEWLINE [0; 2; 4];
        Emitted DEDENT [0]; Declined [0]; Declined [0]].
Proof.
  intros Hfuel. do 13 (destruct fuel as [|fuel]; [lia|]). reflexivity.
Qed.

Lemma scenario_A_events_witness :
  lex_session 13 (create zero_mem) scenario_A 0 indentation_only
  = Ok [Declined [0]; Emitted NEWLINE [0];
        Emitted INDENT [0; 2]; Declined [0; 2]; Emitted NEWLINE [0; 2];
        Declined [0; 2]; Emitted NEWLINE [0; 2];
        Emitted INDENT [0; 2; 4]; Declined [0; 2; 4]; Emitted NEWLINE [0; 2; 4];
        Emitted DEDENT [0]; Declined [0]; Declined [0]].
Proof.
  apply (scenario_A_events zero_mem 13). lia.
Defined.

(** C2 as stated fails: the session yields one DEDENT, not two, so the
    token sequence is not NEWLINE, INDENT, NEWLINE, INDENT, NEWLINE,
    DEDENT, DEDENT. *)
Lemma scenario_A_counterexample :
  session_tokens (lex_session 40 (create zero_mem) scenario_A 0 indentation_only)
  = Some [NEWLINE; INDENT; NEWLINE; NEWLINE; INDENT; NEWLINE; DEDENT]
  /\ session_tokens (lex_session 40 (create zero_mem) scenario_A 0 indentation_only)
     <> Some [NEWLINE; INDENT; NEWLINE; INDENT; NEWLINE; DEDENT; DEDENT].
Proof.
  assert (H : session_tokens
                (lex_session 40 (create zero_mem) scenario_A 0 indentation_only)
              = Some [NEWLINE; INDENT; NEWLINE; NEWLINE; INDENT; NEWLINE; DEDENT])
    by (vm_compute; reflexivity).
  split; [exact H | rewrite H; discriminate].
Qed.

(** ** Serialized state *)

Lemma bytes_of_int_length (x : Z) : length (bytes_of_int x) = 4%nat.
Proof. reflexivity. Qed.

Lemma concat_bytes_of_int_length (l : list Z) :
  length (concat (map bytes_of_int l)) = (4 * length l)%nat.
Proof.
  induction l as [|x l IH]; [reflexivity|].
  cbn [map concat]. rewrite length_app, IH, bytes_of_int_length. simpl. lia.
Qed.

Lemma int_of_char_small (char_is_signed : bool) (z : Z) :
  0 <= z < 128 -> int_of_char char_is_signed (char_of_int z) = z.
Proof.
  intros Hz. unfold int_of_char, char_of_int. rewrite Z_of_byte_of_Z.
  rewrite Z.mod_small by lia.
  replace (128 <=? z) with false by (symmetry; apply Z.leb_gt; lia).
  by rewrite andb_false_r.
Qed.

Lemma int_of_bytes_of_int (x : Z) :
  -2147483648 <= x < 2147483648 ->
  int_of_bytes (byte_of_Z x) (byte_of_Z (x / 256)) (byte_of_Z (x / 65536))
    (byte_of_Z (x / 16777216)) = x.
Proof.
  intros Hx. unfold int_of_bytes. rewrite !Z_of_byte_of_Z.
  destruct (Z.ltb_spec
              (x mod 256 + 256 * (x / 256 mod 256) + 65536 * (x / 65536 mod 256)
               + 16777216 * (x / 16777216 mod 256)) 2147483648) as [H|H];
    Z.div_mod_to_equations; lia.
Qed.

(** Scenario C: a buffer of two bytes sets the scratch count and the
    depth, and nothing else; no read leaves the buffer. *)
Lemma deserialize_two_header_bytes (char_is_signed : bool) (s : Scanner) (b0 b1 : byte) :
  deserialize char_is_signed s [b0; b1] 2
  = Ok (set_indent_stack_size (set_hash_count s (int_of_char char_is_signed b0))
          (int_of_char char_is_signed b1)).
Proof.
  destruct char_is_signed, b1; reflexivity.
Qed.

(** Reading a buffer that holds the whole header. *)
Lemma deserialize_with_header (char_is_signed : bool) (t : Scanner)
    (b0 b1 i0 i1 i2 i3 flag : byte) (tail : list byte) (len : Z) :
  7 <= len ->
  let buffer := b0 :: b1 :: i0 :: i1 :: i2 :: i3 :: flag :: tail in
  let t' := mkScanner (int_of_char char_is_signed b0) (indent_stack t)
              (int_of_char char_is_signed b1) (int_of_bytes i0 i1 i2 i3)
              (bool_of_char char_is_signed flag) in
  deserialize char_is_signed t buffer len
  = if len >? size_t (7 + size_t (indent_stack_size t') * SIZEOF_INT) then
      if indent_stack_size t' <? 0 then OutOfBounds Buffer (7 + len)
      else copy_stack (Z.to_nat (indent_stack_size t')) t' buffer 7 0
    else Ok t'.
Proof.
  intros Hlen buffer t'. unfold deserialize, SIZEOF_INT.
  replace (len >? 0) with true by (symmetry; apply Z.gtb_lt; lia).
  change (buffer_get buffer 0) with (Ok b0). cbn [mbind result_bind].
  change (0 + 1) with 1.
  replace (len >? 1) with true by (symmetry; apply Z.gtb_lt; lia).
  change (buffer_get buffer 1) with (Ok b1). cbn [mbind result_bind].
  change (1 + 1) with 2. change (2 + 4) with 6.
  replace (len >? 6) with true by (symmetry; apply Z.gtb_lt; lia).
  change (buffer_get_int buffer 2) with (Ok (int_of_bytes i0 i1 i2 i3)).
  cbn [mbind result_bind]. change (2 + 4) with 6.
  replace (len >? 6) with true by (symmetry; apply Z.gtb_lt; lia).
  change (buffer_get buffer 6) with (Ok flag). cbn [mbind result_bind].
  change (6 + 1) with 7. reflexivity.
Qed.

(** Deserializing what [serialize] wrote restores the depth, the flag,
    [current_indent] and a small scratch count, but never reaches the
    entries: the last guard compares [length] with itself, and the array
    of the target stays as it was. *)
Lemma deserialize_serialize_keeps_array
    (char_is_signed : bool) (s t : Scanner) (buffer : list byte) :
  serialize s = Ok buffer ->
  exists t',
    deserialize char_is_signed t buffer (Z.of_nat (length buffer)) = Ok t'
    /\ indent_stack t' = indent_stack t
    /\ indent_stack_size t' = indent_stack_size s
    /\ at_line_start t' = at_line_start s
    /\ (-2147483648 <= current_indent s < 2147483648 ->
        current_indent t' = current_indent s)
    /\ (0 <= hash_count s < 128 -> hash_count t' = hash_count s).
Proof.
  unfold serialize, STACK_CAPACITY.
  destruct (Z.leb_spec 0 (indent_stack_size s)); [|discriminate].
  destruct (Z.leb_spec (indent_stack_size s) 100); [|discriminate].
  destruct (Z.leb_spec 100 (Z.of_nat (length (indent_stack s)))); [|discriminate].
  cbn [andb]. intros [= <-].
  set (tail := concat (map bytes_of_int (stack_of s))).
  assert (Htail : Z.of_nat (length tail) = 4 * indent_stack_size s).
  { unfold tail. rewrite concat_bytes_of_int_length.
    unfold stack_of. rewrite length_take. lia. }
  cbn [app bytes_of_int length]. rewrite !Nat2Z.inj_succ, Htail.
  rewrite deserialize_with_header by lia.
  cbn [indent_stack_size indent_stack at_line_start].
  rewrite int_of_char_small by lia.
  replace (size_t (7 + size_t (indent_stack_size s) * SIZEOF_INT))
    with (7 + 4 * indent_stack_size s).
  2:{ unfold size_t, SIZEOF_INT. rewrite (Z.mod_small (indent_stack_size s)) by lia.
      rewrite Z.mod_small by lia. lia. }
  match goal with
  | |- context [?a >? ?b] =>
      replace (a >? b) with false by (symmetry; rewrite Z.gtb_ltb; apply Z.ltb_ge; lia)
  end.
  eexists. split; [reflexivity|]. split; [reflexivity|]. split; [reflexivity|].
  cbn [at_line_start current_indent hash_count]. split; [|split].
  - unfold bool_of_char, int_of_char.
    destruct (at_line_start s), char_is_signed; reflexivity.
  - apply int_of_bytes_of_int.
  - apply int_of_char_small.
Qed.

(** C1 (the code never restores the entries): the state with the stack
    0, 2 is serialized into 15 bytes; deserializing them into a fresh
    scanner restores depth, [current_indent] and [at_line_start], but the
    entries stay those of the fresh scanner, so the stack read back is
    0, 0 and not 0, 2. *)
Theorem roundtrip_loses_stack_entries (char_is_signed : bool) :
  scan (create zero_mem) (start_lexer (spaces 2 ++ [98]) 0) indentation_only
  = Ok (true, indented_scanner, mkLexer [98] 2 (spaces 2) (Some INDENT))
  /\ exists buffer restored,
       serialize indented_scanner = Ok buffer
       /\ length buffer = 15%nat
       /\ deserialize char_is_signed (create zero_mem) buffer 15 = Ok restored
       /\ indent_stack_size restored = 2
       /\ current_indent restored = 2
       /\ at_line_start restored = false
       /\ stack_of restored = [0; 0]
       /\ stack_of indented_scanner = [0; 2].
Proof.
  split; [reflexivity|].
  destruct char_is_signed;
    (eexists _, _; split; [reflexivity|]; split; [reflexivity|];
     split; [vm_compute; reflexivity|]; repeat split; reflexivity).
Qed.

(** C9 (fields of a short buffer are read at the wrong offset): the first
    three bytes of the serialized fresh scanner are the scratch count, the
    depth and the low byte of [current_indent].  Deserializing them skips
    [current_indent] without advancing, then reads that byte as
    [at_line_start]: the flag, absent from the buffer, goes from true to
    false. *)
Theorem truncated_buffer_overwrites_at_line_start (char_is_signed : bool) :
  exists buffer restored,
    serialize (create zero_mem) = Ok buffer
    /\ take 3 buffer = [x00; x01; x00]
    /\ deserialize char_is_signed (create zero_mem) (take 3 buffer) 3 = Ok restored
    /\ at_line_start (create zero_mem) = true
    /\ at_line_start restored = false.
Proof.
  destruct char_is_signed;
    (eexists _, _; split; [reflexivity|]; split; [reflexivity|];
     split; [vm_compute; reflexivity|]; split; reflexivity).
Qed.

(** ** Raw strings *)

Lemma advance_n_add (a b : nat) (lx : TSLexer) :
  advance_n (a + b) lx = advance_n b (advance_n a lx).
Proof.
  revert lx. induction a as [|a IH]; intros lx; simpl; [reflexivity | apply IH].
Qed.

Lemma advance_n_spec (p tl : list Z) (lx : TSLexer) :
  input lx = p ++ tl ->
  input (advance_n (length p) lx) = tl
  /\ token (advance_n (length p) lx) = token lx ++ p
  /\ result_symbol (advance_n (length p) lx) = result_symbol lx.
Proof.
  revert lx. induction p as [|c p IH]; intros lx Hin; simpl.
  - rewrite app_nil_r. auto.
  - destruct lx as [inp col tok r]. simpl in Hin. subst inp.
    rewrite advance_cons.
    destruct (IH (mkLexer (p ++ tl) (if c =? 10 then 0%N else N.succ col) (tok ++ [c]) r)
                eq_refl) as (H1 & H2 & H3).
    rewrite H1, H2, H3. simpl. rewrite <- app_assoc. auto.
Qed.

Lemma lookahead_no_hash (lx : TSLexer) :
  no_hash_ahead (input lx) -> (lookahead lx =? 35) = false.
Proof.
  unfold no_hash_ahead, lookahead. destruct (input lx) as [|c l]; simpl; [reflexivity|].
  intros H. apply Z.eqb_neq. congruence.
Qed.

Lemma lookahead_input (lx : TSLexer) (c : Z) (l : list Z) :
  input lx = c :: l -> lookahead lx = c.
Proof. unfold lookahead. by intros ->. Qed.

Lemma advance_input (lx : TSLexer) (c : Z) (l : list Z) :
  input lx = c :: l -> input (advance lx) = l.
Proof. destruct lx as [inp col tok r]. simpl. by intros ->. Qed.

(** The opening run is counted in full. *)
Lemma count_hashes_run (n fuel : nat) (lx : TSLexer) (acc : Z) (tl : list Z) :
  input lx = hashes n ++ tl -> no_hash_ahead tl ->
  (length (input lx) <= fuel)%nat ->
  count_hashes fuel lx acc = (acc + Z.of_nat n, advance_n n lx).
Proof.
  revert fuel lx acc. induction n as [|n IH]; intros fuel lx acc Hin Hno Hfuel.
  - simpl in Hin. rewrite Z.add_0_r. destruct fuel as [|fuel]; simpl; [reflexivity|].
    rewrite lookahead_no_hash by (by rewrite Hin). reflexivity.
  - simpl in Hin. destruct fuel as [|fuel]; [rewrite Hin in Hfuel; simpl in Hfuel; lia|].
    simpl. rewrite (lookahead_input _ _ _ Hin). simpl.
    pose proof (advance_input _ _ _ Hin) as Hin'.
    rewrite (IH fuel (advance lx) (acc + 1) Hin' Hno).
    + f_equal. lia.
    + rewrite Hin'. rewrite Hin in Hfuel. simpl in Hfuel. lia.
Qed.

(** The closing run is counted up to the budget left, and a shorter run
    in full. *)
Lemma count_closing_run (j fuel : nat) (lx : TSLexer) (c n : Z) (tl : list Z) :
  input lx = hashes j ++ tl ->
  c + Z.of_nat j <= n ->
  c + Z.of_nat j = n \/ no_hash_ahead tl ->
  (Z.to_nat (n - c) <= fuel)%nat ->
  count_closing fuel lx c n = (c + Z.of_nat j, advance_n j lx).
Proof.
  revert fuel lx c. induction j as [|j IH]; intros fuel lx c Hin Hle Hstop Hfuel.
  - simpl in Hin. rewrite Z.add_0_r in *. destruct fuel as [|fuel]; simpl; [reflexivity|].
    destruct Hstop as [<-|Hno].
    + rewrite Z.ltb_irrefl, andb_false_r. reflexivity.
    + rewrite lookahead_no_hash by (by rewrite Hin). reflexivity.
  - simpl in Hin. destruct fuel as [|fuel]; [lia|].
    simpl. rewrite (lookahead_input _ _ _ Hin).
    replace (c <? n) with true by (symmetry; apply Z.ltb_lt; lia). simpl.
    rewrite (IH fuel (advance lx) (c + 1)).
    + f_equal. lia.
    + exact (advance_input _ _ _ Hin).
    + lia.
    + destruct Hstop as [H|H]; [left; lia | right; exact H].
    + lia.
Qed.

Lemma leading_hashes (l : list Z) :
  exists j l', l = hashes j ++ l' /\ no_hash_ahead l'.
Proof.
  induction l as [|c l (j & l' & -> & Hno)].
  - exists 0%nat, []. split; [reflexivity | discriminate].
  - destruct (Z.eq_dec c 35) as [->|Hc].
    + exists (S j), l'. auto.
    + exists 0%nat, (c :: hashes j ++ l'). split; [reflexivity|].
      unfold no_hash_ahead. simpl. congruence.
Qed.

Lemma starts_with_hashes_run (n j : nat) (l : list Z) :
  (n <= j)%nat -> starts_with_hashes n (hashes j ++ l) = true.
Proof.
  revert j. induction n as [|n IH]; intros j Hj; [reflexivity|].
  destruct j as [|j]; [lia|]. simpl. apply IH. lia.
Qed.

Lemma has_close_app_r (q : Z) (n : nat) (l1 l2 : list Z) :
  has_close q n (l1 ++ l2) = false -> has_close q n l2 = false.
Proof.
  induction l1 as [|c l1 IH]; simpl; [auto|].
  intros H. apply orb_false_elim in H as [_ H]. auto.
Qed.

(** The body loop runs up to the first quote that is followed by [n]
    markers; when the body holds none, that is the closing one. *)
Lemma scan_body_closes (q : Z) (n : nat) (rest : list Z) :
  q <> 0 -> q <> 35 -> (1 <= n)%nat ->
  forall (m : nat) (body : list Z) (fuel : nat) (lx : TSLexer),
    (length body <= m)%nat ->
    input lx = body ++ q :: hashes n ++ rest ->
    0 ∉ body ->
    has_close q n body = false ->
    (length (input lx) <= fuel)%nat ->
    scan_body fuel lx q (Z.of_nat n) = (true, advance_n (length body + 1 + n) lx).
Proof.
  intros Hq0 Hq35 Hn. induction m as [|m IH]; intros body fuel lx Hm Hin Hnul Hclose Hfuel.
  - destruct body; [|simpl in Hm; lia]. simpl in Hin.
    destruct fuel as [|fuel]; [rewrite Hin in Hfuel; simpl in Hfuel; lia|].
    simpl. rewrite (lookahead_input _ _ _ Hin).
    replace (q =? 0) with false by (symmetry; by apply Z.eqb_neq).
    rewrite Z.eqb_refl, Nat2Z.id.
    rewrite (count_closing_run n n (advance lx) 0 (Z.of_nat n) rest);
      [| exact (advance_input _ _ _ Hin) | lia | left; lia | lia].
    simpl. rewrite Z.eqb_refl. reflexivity.
  - destruct body as [|c body].
    { apply (IH [] fuel lx); simpl; auto; lia. }
    simpl in Hin, Hm.
    destruct fuel as [|fuel]; [rewrite Hin in Hfuel; simpl in Hfuel; lia|].
    assert (Hc0 : c <> 0) by (intros ->; apply Hnul; left).
    assert (Hnul' : 0 ∉ body) by (intros H; apply Hnul; by right).
    simpl in Hclose. apply orb_false_elim in Hclose as [Hhere Hclose].
    pose proof (advance_input _ _ _ Hin) as Hin'.
    assert (Hfuel' : (length (input (advance lx)) <= fuel)%nat).
    { rewrite Hin'. rewrite Hin in Hfuel. simpl in Hfuel. lia. }
    simpl. rewrite (lookahead_input _ _ _ Hin).
    replace (c =? 0) with false by (symmetry; by apply Z.eqb_neq).
    destruct (Z.eqb_spec c q) as [->|Hcq].
    + simpl in Hhere.
      destruct (leading_hashes body) as (j & body' & -> & Hno).
      assert (Hj : (j < n)%nat).
      { destruct (decide (n <= j)%nat) as [Hge|]; [|lia].
        rewrite starts_with_hashes_run in Hhere by exact Hge. discriminate. }
      rewrite <- app_assoc in Hin'.
      rewrite Nat2Z.id.
      rewrite (count_closing_run j n (advance lx) 0 (Z.of_nat n)
                 (body' ++ q :: hashes n ++ rest));
        [| exact Hin' | lia | right | lia].
      2:{ unfold no_hash_ahead in *. destruct body' as [|z body']; simpl in *;
            intros [= E]; [by apply Hq35 | apply Hno; by rewrite E]. }
      replace (0 + Z.of_nat j =? Z.of_nat n) with false by (symmetry; apply Z.eqb_neq; lia).
      destruct (advance_n_spec (hashes j) (body' ++ q :: hashes n ++ rest) (advance lx) Hin')
        as (Hin2 & _). unfold hashes in Hin2 at 1. rewrite length_replicate in Hin2.
      rewrite length_app in Hm. unfold hashes in Hm. rewrite length_replicate in Hm.
      rewrite (IH body' fuel (advance_n j (advance lx))).
      * f_equal. rewrite length_app. unfold hashes. rewrite length_replicate.
        replace (j + length body' + 1 + n)%nat
          with (j + (length body' + 1 + n))%nat by lia.
        rewrite (advance_n_add j). reflexivity.
      * lia.
      * exact Hin2.
      * intros H. apply Hnul'. apply elem_of_app. by right.
      * exact (has_close_app_r _ _ _ _ Hclose).
      * rewrite Hin2. rewrite Hin', !length_app in Hfuel'. rewrite length_app. lia.
    + apply (IH body fuel (advance lx));
        [lia | exact Hin' | exact Hnul' | exact Hclose | exact Hfuel'].
Qed.

(** The raw-string block on a literal: [n >= 1] markers, a quote [q], a
    body without NUL and without [q] followed by [n] or more markers,
    [q] and [n] markers are one token, whatever follows. *)
Lemma scan_tail_raw_literal
    (s : Scanner) (lx : TSLexer) (valid_symbols : TokenType -> bool)
    (n : nat) (q : Z) (body rest : list Z) :
  valid_symbols MULTI_LINE_RAW_STRING_LITERAL = true ->
  (1 <= n)%nat ->
  q = 34 \/ q = 39 ->
  0 ∉ body ->
  has_close q n body = false ->
  input lx = hashes n ++ q :: body ++ q :: hashes n ++ rest ->
  exists lx',
    scan_tail s lx valid_symbols = (true, s, lx')
    /\ result_symbol lx' = Some MULTI_LINE_RAW_STRING_LITERAL
    /\ token lx' = token lx ++ hashes n ++ q :: body ++ q :: hashes n
    /\ input lx' = rest.
Proof.
  intros Hraw Hn Hq Hnul Hclose Hin.
  assert (Hq0 : q <> 0) by (destruct Hq; lia).
  assert (Hq35 : q <> 35) by (destruct Hq; lia).
  unfold scan_tail. rewrite Hraw. unfold scan_raw_string.
  rewrite (count_hashes_run n _ lx 0 (q :: body ++ q :: hashes n ++ rest) Hin);
    [| unfold no_hash_ahead; simpl; congruence | lia].
  rewrite Z.add_0_l.
  replace (Z.of_nat n =? 0) with false by (symmetry; apply Z.eqb_neq; lia).
  destruct (advance_n_spec (hashes n) _ lx Hin) as (HinA & HtokA & HresA).
  unfold hashes in HinA, HtokA, HresA at 1. rewrite length_replicate in HinA, HtokA, HresA.
  fold (hashes n) in HtokA.
  set (lxA := advance_n n lx) in *.
  rewrite (lookahead_input _ _ _ HinA).
  replace (negb (q =? 34) && negb (q =? 39)) with false
    by (destruct Hq; subst; reflexivity).
  pose proof (advance_input _ _ _ HinA) as Hin2.
  destruct (advance_n_spec [q] _ lxA HinA) as (_ & Htok2 & Hres2).
  cbn [length advance_n] in Htok2, Hres2.
  set (lx2 := advance lxA) in *.
  rewrite (scan_body_closes q n rest Hq0 Hq35 Hn (length body) body _ lx2);
    [| lia | exact Hin2 | exact Hnul | exact Hclose | lia].
  assert (Hin2' : input lx2 = (body ++ q :: hashes n) ++ rest)
    by (rewrite Hin2, <- app_assoc; reflexivity).
  destruct (advance_n_spec (body ++ q :: hashes n) rest lx2 Hin2') as (HinB & HtokB & HresB).
  replace (length (body ++ q :: hashes n)) with (length body + 1 + n)%nat in *
    by (rewrite length_app; simpl; unfold hashes; rewrite length_replicate; lia).
  eexists. split; [reflexivity|]. split; [reflexivity|]. split.
  - cbn [token set_result_symbol]. rewrite HtokB, Htok2, HtokA.
    rewrite <- !app_assoc. reflexivity.
  - exact HinB.
Qed.

(** With a marker under the cursor the indentation block measures the
    width 0. *)
Lemma scan_indentation_at_marker
    (s : Scanner) (lx : TSLexer) (valid_symbols : TokenType -> bool) :
  lookahead lx = 35 ->
  scan_indentation s lx valid_symbols = compare_indent s lx valid_symbols 0.
Proof.
  intros Hla. unfold scan_indentation.
  assert (skip_whitespace (length (input lx)) lx 0 = (0, lx)) as ->.
  { destruct (length (input lx)); simpl; [reflexivity|]. by rewrite Hla. }
  by rewrite Hla.
Qed.

(** C5 (as amended): [n >= 1] markers, a quote [q], a body, [q] and [n]
    markers are one raw-string token that spans exactly the literal,
    whatever follows it, provided the body holds no NUL and no quote [q]
    that is followed by [n] or more markers; quotes followed by fewer
    markers are body content.  This holds in every call that gets as far
    as the raw-string block: a call that does not enter the indentation
    block, and a call at the start of a line unless it answers the width 0
    with a DEDENT, which it does when DEDENT is acceptable and the top of
    the stack is above 0.  The call leaves the stack alone. *)
Theorem raw_string_spans_literal
    (s : Scanner) (lx : TSLexer) (valid_symbols : TokenType -> bool)
    (n : nat) (q : Z) (body rest : list Z) :
  valid_symbols MULTI_LINE_RAW_STRING_LITERAL = true ->
  at_line_start s && (valid_symbols INDENT || valid_symbols DEDENT) = false
  \/ (exists top, stack_get s (indent_stack_size s - 1) = Ok top
                  /\ 0 <= top
                  /\ (0 < top -> valid_symbols DEDENT = false)) ->
  (1 <= n)%nat ->
  q = 34 \/ q = 39 ->
  0 ∉ body ->
  has_close q n body = false ->
  input lx = hashes n ++ q :: body ++ q :: hashes n ++ rest ->
  exists s' lx',
    scan s lx valid_symbols = Ok (true, s', lx')
    /\ (s' = s \/ s' = set_at_line_start (set_current_indent s 0) false)
    /\ (at_line_start s && (valid_symbols INDENT || valid_symbols DEDENT) = false ->
        s' = s)
    /\ indent_stack s' = indent_stack s
    /\ indent_stack_size s' = indent_stack_size s
    /\ result_symbol lx' = Some MULTI_LINE_RAW_STRING_LITERAL
    /\ token lx' = token lx ++ hashes n ++ q :: body ++ q :: hashes n
    /\ input lx' = rest.
Proof.
  intros Hraw Hreach Hn Hq Hnul Hclose Hin.
  assert (Hla : lookahead lx = 35).
  { destruct n as [|n]; [lia|]. exact (lookahead_input _ _ _ Hin). }
  unfold scan. rewrite Hla. cbn [Z.eqb Pos.eqb orb]. rewrite andb_false_r.
  destruct (at_line_start s && (valid_symbols INDENT || valid_symbols DEDENT)) eqn:Hind.
  - destruct Hreach as [|(top & Htop & Hge & Hded)]; [discriminate|].
    rewrite (scan_indentation_at_marker _ _ _ Hla).
    unfold compare_indent. rewrite Htop. cbn [mbind result_bind].
    replace (0 >? top) with false by (symmetry; rewrite Z.gtb_ltb; apply Z.ltb_ge; lia).
    cbn [andb].
    replace ((0 <? top) && valid_symbols DEDENT) with false.
    2:{ destruct (Z.ltb_spec 0 top) as [Hpos|]; [|reflexivity].
        rewrite (Hded Hpos). reflexivity. }
    cbn [mbind result_bind].
    destruct (scan_tail_raw_literal (set_at_line_start (set_current_indent s 0) false)
                lx valid_symbols n q body rest Hraw Hn Hq Hnul Hclose Hin)
      as (lx' & -> & Hres & Htok & Hrest).
    exists (set_at_line_start (set_current_indent s 0) false), lx'.
    split; [reflexivity|]. split; [by right|]. split; [discriminate|].
    repeat split; assumption || reflexivity.
  - cbn [mbind result_bind].
    destruct (scan_tail_raw_literal s lx valid_symbols n q body rest
                Hraw Hn Hq Hnul Hclose Hin) as (lx' & -> & Hres & Htok & Hrest).
    exists s, lx'. split; [reflexivity|]. split; [by left|].
    repeat split; assumption || reflexivity.
Qed.

Lemma raw_string_spans_literal_witness :
  exists s' lx',
    scan (create zero_mem) (start_lexer scenario_B 0) all_valid = Ok (true, s', lx')
    /\ (s' = create zero_mem
        \/ s' = set_at_line_start (set_current_indent (create zero_mem) 0) false)
    /\ (at_line_start (create zero_mem) && (all_valid INDENT || all_valid DEDENT) = false ->
        s' = create zero_mem)
    /\ indent_stack s' = indent_stack (create zero_mem)
    /\ indent_stack_size s' = indent_stack_size (create zero_mem)
    /\ result_symbol lx' = Some MULTI_LINE_RAW_STRING_LITERAL
    /\ token lx' = token (start_lexer scenario_B 0)
                   ++ hashes 2 ++ 34 :: scenario_B_body ++ 34 :: hashes 2
    /\ input lx' = [].
Proof.
  apply (raw_string_spans_literal (create zero_mem) (start_lexer scenario_B 0) all_valid
           2 34 scenario_B_body []).
  - reflexivity.
  - right. exists 0. split; [reflexivity|]. split; lia.
  - lia.
  - left. reflexivity.
  - unfold scenario_B_body. intros H.
    repeat (apply elem_of_cons in H as [H|H]; [discriminate|]).
    by apply elem_of_nil in H.
  - reflexivity.
  - reflexivity.
Defined.

(** C5 as stated fails in three ways.  In [raw_long_run] the body holds a
    quote followed by two markers, a run whose length differs from
    [n = 1]: the token closes there, after five characters, and the rest
    of the literal is left in the input.  In [raw_nul] the body holds a
    NUL: the body loop stops there and the call declines.  And at the
    start of a line, with DEDENT acceptable and the stack 0, 4, the call
    on [raw_a] answers the width 0 with a DEDENT token and recognizes no
    literal. *)
Lemma raw_string_long_run_counterexample :
  (raw_long_run = hashes 1 ++ 34 :: [97; 34; 35; 35; 98] ++ 34 :: hashes 1
   /\ exists lx',
        scan mid_line_scanner (start_lexer raw_long_run 0) all_valid
        = Ok (true, mid_line_scanner, lx')
        /\ result_symbol lx' = Some MULTI_LINE_RAW_STRING_LITERAL
        /\ token lx' = [35; 34; 97; 34; 35]
        /\ input lx' = [35; 98; 34; 35])
  /\ (raw_nul = hashes 1 ++ 34 :: [0] ++ 34 :: hashes 1
      /\ exists s' lx',
           scan mid_line_scanner (start_lexer raw_nul 0) all_valid = Ok (false, s', lx')
           /\ result_symbol lx' = None)
  /\ (raw_a = hashes 1 ++ 34 :: [97] ++ 34 :: hashes 1
      /\ stack_of two_level_scanner = [0; 4]
      /\ at_line_start two_level_scanner = true
      /\ exists s' lx',
           scan two_level_scanner (start_lexer raw_a 0) all_valid = Ok (true, s', lx')
           /\ result_symbol lx' = Some DEDENT
           /\ token lx' = []
           /\ input lx' = raw_a).
Proof.
  split; [|split].
  - split; [reflexivity|].
    eexists. split; [reflexivity|]. repeat split; reflexivity.
  - split; [reflexivity|].
    eexists _, _. split; [reflexivity|]. reflexivity.
  - split; [reflexivity|]. split; [reflexivity|]. split; [reflexivity|].
    eexists _, _. split; [reflexivity|]. repeat split; reflexivity.
Qed.

(** * Further properties of the scanner *)

(** ** Measuring the blanks *)

Lemma lookahead_first_char (lx : TSLexer) : lookahead lx = first_char (input lx).
Proof. reflexivity. Qed.

Lemma advance_n_column_blanks (ws tl : list Z) (lx : TSLexer) :
  input lx = ws ++ tl -> Forall (fun c => is_blank c = true) ws ->
  get_column (advance_n (length ws) lx) = get_column lx + Z.of_nat (length ws).
Proof.
  revert lx. induction ws as [|c ws IH]; intros lx Hin Hws; simpl.
  - lia.
  - destruct lx as [inp col tok r]. simpl in Hin. subst inp.
    apply Forall_cons in Hws as [Hc Hws]. rewrite advance_cons.
    rewrite (IH (mkLexer (ws ++ tl) (if c =? 10 then 0%N else N.succ col) (tok ++ [c]) r)
               eq_refl Hws).
    unfold get_column. simpl.
    replace (c =? 10) with false; [lia|].
    unfold is_blank in Hc. apply orb_prop in Hc as [Hc|Hc];
      apply Z.eqb_eq in Hc; subst; reflexivity.
Qed.

Lemma blank_width_tabs (ws : list Z) :
  blank_width ws = Z.of_nat (length ws) + 3 * tab_count ws.
Proof.
  induction ws as [|c ws IH]; [reflexivity|].
  cbn [blank_width tab_count length]. rewrite IH. destruct (c =? 9); lia.
Qed.

Lemma skip_whitespace_run (ws : list Z) (fuel : nat) (lx : TSLexer) (acc : Z)
    (tl : list Z) :
  input lx = ws ++ tl -> Forall (fun c => is_blank c = true) ws ->
  is_blank (first_char tl) = false ->
  (length (input lx) <= fuel)%nat ->
  skip_whitespace fuel lx acc = (acc + blank_width ws, advance_n (length ws) lx).
Proof.
  revert fuel lx acc. induction ws as [|c ws IH]; intros fuel lx acc Hin Hws Htl Hfuel.
  - simpl in Hin. simpl. rewrite Z.add_0_r.
    destruct fuel as [|fuel]; simpl; [reflexivity|].
    rewrite lookahead_first_char, Hin. unfold is_blank in Htl. rewrite Htl. reflexivity.
  - simpl in Hin. apply Forall_cons in Hws as [Hc Hws].
    destruct fuel as [|fuel]; [rewrite Hin in Hfuel; simpl in Hfuel; lia|].
    simpl. rewrite (lookahead_input _ _ _ Hin).
    unfold is_blank in Hc. rewrite Hc.
    pose proof (advance_input _ _ _ Hin) as Hin'.
    rewrite (IH fuel (advance lx) _ Hin' Hws Htl).
    + f_equal. destruct (c =? 9); lia.
    + rewrite Hin'. rewrite Hin in Hfuel. simpl in Hfuel. lia.
Qed.

(** The loop stops behind the run of blanks, with its width. *)
Lemma skip_whitespace_blank_run (lx : TSLexer) (ws rest : list Z) :
  input lx = ws ++ rest ->
  Forall (fun c => is_blank c = true) ws ->
  is_blank (first_char rest) = false ->
  exists lx1,
    skip_whitespace (length (input lx)) lx 0 = (blank_width ws, lx1)
    /\ input lx1 = rest
    /\ token lx1 = token lx ++ ws
    /\ result_symbol lx1 = result_symbol lx
    /\ get_column lx1 = get_column lx + Z.of_nat (length ws)
    /\ blank_width ws = Z.of_nat (length ws) + 3 * tab_count ws.
Proof.
  intros Hin Hws Hrest. exists (advance_n (length ws) lx).
  destruct (advance_n_spec ws rest lx Hin) as (H1 & H2 & H3).
  split; [apply (skip_whitespace_run ws _ lx 0 rest); auto|].
  split; [exact H1|]. split; [exact H2|]. split; [exact H3|].
  split; [exact (advance_n_column_blanks ws rest lx Hin Hws) | apply blank_width_tabs].
Qed.

(** X1: the indentation loop consumes exactly the run of spaces and tabs
    in front of the cursor; the width it reports counts a space as 1 and
    a tab as 4, so it exceeds the number of characters consumed (and the
    advance of the column) by three per tab. *)
Theorem whitespace_run_measured (lx : TSLexer) (ws rest : list Z) :
  input lx = ws ++ rest ->
  Forall (fun c => is_blank c = true) ws ->
  is_blank (first_char rest) = false ->
  exists lx1,
    skip_whitespace (length (input lx)) lx 0 = (blank_width ws, lx1)
    /\ input lx1 = rest
    /\ token lx1 = token lx ++ ws
    /\ result_symbol lx1 = result_symbol lx
    /\ get_column lx1 = get_column lx + Z.of_nat (length ws)
    /\ blank_width ws = Z.of_nat (length ws) + 3 * tab_count ws.
Proof.
  exact (skip_whitespace_blank_run lx ws rest).
Qed.

Lemma whitespace_run_measured_witness :
  exists lx1,
    skip_whitespace (length (input (start_lexer [9; 32; 9; 120] 0)))
      (start_lexer [9; 32; 9; 120] 0) 0 = (blank_width [9; 32; 9], lx1)
    /\ input lx1 = [120]
    /\ token lx1 = token (start_lexer [9; 32; 9; 120] 0) ++ [9; 32; 9]
    /\ result_symbol lx1 = result_symbol (start_lexer [9; 32; 9; 120] 0)
    /\ get_column lx1
       = get_column (start_lexer [9; 32; 9; 120] 0) + Z.of_nat (length [9; 32; 9])
    /\ blank_width [9; 32; 9] = Z.of_nat (length [9; 32; 9]) + 3 * tab_count [9; 32; 9].
Proof.
  apply (whitespace_run_measured (start_lexer [9; 32; 9; 120] 0) [9; 32; 9] [120]).
  - reflexivity.
  - repeat constructor.
  - reflexivity.
Defined.

(** ** What a call leaves alone *)

Lemma pop_loop_fields (fuel : nat) (s s' : Scanner) (w : Z) :
  pop_loop fuel s w = Ok s' ->
  indent_stack s' = indent_stack s /\ hash_count s' = hash_count s
  /\ current_indent s' = current_indent s /\ at_line_start s' = at_line_start s.
Proof.
  revert s. induction fuel as [|fuel IH]; intros s; simpl.
  - intros [= <-]. auto.
  - destruct (indent_stack_size s >? 1); [|intros [= <-]; auto].
    destruct (stack_get s (indent_stack_size s - 1)) as [top|]; simpl; [|discriminate].
    destruct (top >? w); [|intros [= <-]; auto].
    intros H. apply IH in H. simpl in H. exact H.
Qed.

Lemma compare_indent_fields (s : Scanner) (lx : TSLexer)
    (valid_symbols : TokenType -> bool) (w : Z) (f : flow) :
  compare_indent s lx valid_symbols w = Ok f ->
  hash_count (flow_state f) = hash_count s
  /\ current_indent (flow_state f) = w
  /\ at_line_start (flow_state f) = false
  /\ input (flow_lexer f) = input lx
  /\ token (flow_lexer f) = token lx.
Proof.
  unfold compare_indent.
  destruct (stack_get s (indent_stack_size s - 1)) as [top|]; simpl; [|discriminate].
  destruct ((w >? top) && valid_symbols INDENT).
  - unfold stack_set. destruct (_ && _ && _); simpl; [|discriminate].
    intros [= <-]. simpl. auto.
  - destruct ((w <? top) && valid_symbols DEDENT).
    + destruct (pop_loop _ s w) as [s1|] eqn:Hpop; simpl; [|discriminate].
      apply pop_loop_fields in Hpop as (_ & Hh & _).
      destruct (stack_get s1 (indent_stack_size s1 - 1)) as [v|]; simpl; [|discriminate].
      destruct (v =? w); simpl; intros [= <-]; simpl; auto.
    + simpl. intros [= <-]. simpl. auto.
Qed.

(** ** Indenting and dedenting *)

(** The push branch of the comparison, within the capacity. *)
Lemma scan_indent_push
    (s : Scanner) (lx lx1 : TSLexer) (valid_symbols : TokenType -> bool) (w top : Z) :
  length (indent_stack s) = 100%nat ->
  measures s lx valid_symbols w lx1 ->
  valid_symbols INDENT = true ->
  stack_get s (indent_stack_size s - 1) = Ok top ->
  top < w ->
  indent_stack_size s < STACK_CAPACITY ->
  exists s',
    scan s lx valid_symbols = Ok (true, s', set_result_symbol lx1 INDENT)
    /\ stack_of s' = stack_of s ++ [w]
    /\ indent_stack_size s' = indent_stack_size s + 1
    /\ current_indent s' = w
    /\ at_line_start s' = false
    /\ hash_count s' = hash_count s.
Proof.
  intros Hlen Hm Hv Htop Hlt Hroom. unfold STACK_CAPACITY in Hroom.
  rewrite (scan_measures _ _ _ _ _ Hm). unfold compare_indent. rewrite Htop. simpl.
  replace (w >? top) with true by (symmetry; apply Z.gtb_lt; lia).
  rewrite Hv. simpl.
  apply stack_get_Ok in Htop as [Hrange _]. unfold STACK_CAPACITY in Hrange.
  rewrite stack_set_Ok by (auto; unfold STACK_CAPACITY; lia). simpl.
  eexists. split; [reflexivity|]. simpl. split; [|auto].
  unfold stack_of. simpl.
  replace (Z.to_nat (indent_stack_size s + 1)) with (S (Z.to_nat (indent_stack_size s)))
    by lia.
  rewrite (take_S_r _ _ w) by (apply list_lookup_insert_eq; lia).
  by rewrite take_insert_ge by lia.
Qed.

(** X2: a call at line start that measures a width above the top, with
    INDENT acceptable and room in the array, emits INDENT: the width is
    pushed (the new top is the measured width, above the prior top),
    [current_indent] is the width, [at_line_start] is cleared, and the
    token is the run of blanks. *)
Theorem indent_pushes_width
    (s : Scanner) (lx lx1 : TSLexer) (valid_symbols : TokenType -> bool) (w top : Z) :
  length (indent_stack s) = 100%nat ->
  measures s lx valid_symbols w lx1 ->
  valid_symbols INDENT = true ->
  stack_get s (indent_stack_size s - 1) = Ok top ->
  top < w ->
  indent_stack_size s < STACK_CAPACITY ->
  exists s',
    scan s lx valid_symbols = Ok (true, s', set_result_symbol lx1 INDENT)
    /\ stack_of s' = stack_of s ++ [w]
    /\ indent_stack_size s' = indent_stack_size s + 1
    /\ current_indent s' = w
    /\ at_line_start s' = false
    /\ hash_count s' = hash_count s.
Proof.
  exact (scan_indent_push s lx lx1 valid_symbols w top).
Qed.

Lemma indent_pushes_width_witness :
  exists s',
    scan two_level_scanner (start_lexer (spaces 8 ++ [120]) 0) indentation_only
    = Ok (true, s',
          set_result_symbol (skip_whitespace 9 (start_lexer (spaces 8 ++ [120]) 0) 0).2 INDENT)
    /\ stack_of s' = stack_of two_level_scanner ++ [8]
    /\ indent_stack_size s' = indent_stack_size two_level_scanner + 1
    /\ current_indent s' = 8
    /\ at_line_start s' = false
    /\ hash_count s' = hash_count two_level_scanner.
Proof.
  apply (indent_pushes_width two_level_scanner (start_lexer (spaces 8 ++ [120]) 0)
           (skip_whitespace 9 (start_lexer (spaces 8 ++ [120]) 0) 0).2
           indentation_only 8 4).
  - reflexivity.
  - unfold measures. repeat apply conj; reflexivity.
  - reflexivity.
  - reflexivity.
  - lia.
  - reflexivity.
Defined.

(** Cutting an increasing stack at the depth where the pop loop stops
    keeps exactly the entries up to [w]. *)
Lemma take_is_filter_le (s : Scanner) (w k : Z) :
  stack_inv s -> 0 <= w ->
  1 <= k <= indent_stack_size s ->
  (forall i v, k <= i < indent_stack_size s ->
               indent_stack s !! Z.to_nat i = Some v -> w < v) ->
  (k = 1 \/ exists v, indent_stack s !! Z.to_nat (k - 1) = Some v /\ v <= w) ->
  take (Z.to_nat k) (stack_of s) = filter (fun x => x <= w) (stack_of s).
Proof.
  intros (Hb & Hbot & Hinc) Hw Hk Habove Hstop.
  rewrite <- (take_drop (Z.to_nat k) (stack_of s)) at 2.
  symmetry. apply filter_le_split.
  - apply Forall_lookup. intros i x Hi.
    apply lookup_take_Some in Hi as [Hi Hik].
    destruct Hstop as [->|(v & Hv1 & Hv2)].
    + assert (i = 0%nat) as -> by lia. rewrite Hbot in Hi. injection Hi as <-. exact Hw.
    + rewrite <- stack_of_lookup in Hv1 by lia.
      assert (x <= v); [|lia].
      apply (increasing_le (stack_of s) i (Z.to_nat (k - 1)));
        [assumption | lia | assumption..].
  - apply Forall_lookup. intros i x Hi. rewrite lookup_drop in Hi.
    pose proof (lookup_lt_Some _ _ _ Hi) as Hbound.
    rewrite stack_of_length in Hbound by exact Hb.
    rewrite stack_of_lookup in Hi by exact Hbound.
    apply (Habove (Z.of_nat (Z.to_nat k + i))); [lia|]. by rewrite Nat2Z.id.
Qed.

(** The dedent branch of the comparison, when the width is an open level. *)
Lemma scan_aligned_dedent
    (s : Scanner) (lx lx1 : TSLexer) (valid_symbols : TokenType -> bool) (w top : Z) :
  stack_inv s ->
  measures s lx valid_symbols w lx1 ->
  valid_symbols DEDENT = true ->
  stack_get s (indent_stack_size s - 1) = Ok top ->
  w < top ->
  w ∈ stack_of s ->
  exists s',
    scan s lx valid_symbols = Ok (true, s', set_result_symbol lx1 DEDENT)
    /\ stack_of s' = filter (fun x => x <= w) (stack_of s)
    /\ last (stack_of s') = Some w
    /\ indent_stack s' = indent_stack s
    /\ current_indent s' = w
    /\ at_line_start s' = false.
Proof.
  intros Hinv Hm Hv Htop Hlt Hin.
  pose proof Hinv as (Hb & Hbot & Hinc). pose proof Hb as [Hlen Hsz].
  unfold STACK_CAPACITY in Hsz.
  pose proof (measures_nonneg _ _ _ _ _ Hm) as Hw.
  rewrite (scan_measures _ _ _ _ _ Hm). unfold compare_indent. rewrite Htop. simpl.
  replace (w >? top) with false by (symmetry; rewrite Z.gtb_ltb; apply Z.ltb_ge; lia).
  replace (w <? top) with true by (symmetry; apply Z.ltb_lt; lia).
  rewrite Hv. simpl.
  destruct (pop_loop_spec (Z.to_nat (indent_stack_size s)) s w Hb ltac:(lia))
    as (k & -> & Hk & Habove & Hstop).
  simpl.
  destruct (stack_get_in_bounds (set_indent_stack_size s k) (k - 1)) as (v & -> & Hv');
    [exact Hlen | unfold STACK_CAPACITY; lia |].
  simpl in *.
  assert (v = w) as ->.
  { apply list_elem_of_lookup_1 in Hin as [j Hj].
    pose proof (lookup_lt_Some _ _ _ Hj) as Hjlt.
    rewrite stack_of_length in Hjlt by exact Hb.
    assert (Hjk : (j < Z.to_nat k)%nat).
    { destruct (decide (j < Z.to_nat k)%nat) as [|Hge]; [assumption|].
      rewrite stack_of_lookup in Hj by exact Hjlt.
      assert (w < w); [|lia].
      apply (Habove (Z.of_nat j)); [lia | by rewrite Nat2Z.id]. }
    rewrite <- stack_of_lookup in Hv' by lia.
    assert (w <= v)
      by (apply (increasing_le (stack_of s) j (Z.to_nat (k - 1))); [assumption | lia | assumption..]).
    destruct Hstop as [->|(v0 & Hv0 & Hle)].
    - assert (j = 0%nat) as -> by lia. change (Z.to_nat (1 - 1)) with 0%nat in Hv'.
      rewrite Hj in Hv'. by injection Hv'.
    - rewrite <- stack_of_lookup in Hv0 by lia. rewrite Hv' in Hv0.
      injection Hv0 as <-. lia. }
  rewrite Z.eqb_refl. simpl.
  eexists. split; [reflexivity|].
  assert (Hview : stack_of (set_at_line_start (set_current_indent
                    (set_indent_stack_size s k) w) false)
                  = take (Z.to_nat k) (stack_of s)).
  { unfold stack_of at 2. rewrite take_take.
    replace (Z.to_nat k `min` Z.to_nat (indent_stack_size s))%nat with (Z.to_nat k) by lia.
    reflexivity. }
  split; [|split; [|simpl; auto]].
  - rewrite Hview. by apply take_is_filter_le.
  - rewrite Hview, last_lookup, length_take, stack_of_length by exact Hb.
    rewrite lookup_take_lt by lia. rewrite stack_of_lookup by lia.
    replace (Init.Nat.pred (Z.to_nat k `min` Z.to_nat (indent_stack_size s)))
      with (Z.to_nat (k - 1)) by lia.
    exact Hv'.
Qed.

(** X3: a call at line start that measures a width below the top, with
    DEDENT acceptable and the width equal to some open level, emits one
    DEDENT however many levels are closed: the stack becomes the prior
    entries up to the width, its top is the width, the array itself is
    not written, [current_indent] is the width and [at_line_start] is
    cleared. *)
Theorem aligned_dedent_pops_to_width
    (s : Scanner) (lx lx1 : TSLexer) (valid_symbols : TokenType -> bool) (w top : Z) :
  stack_inv s ->
  measures s lx valid_symbols w lx1 ->
  valid_symbols DEDENT = true ->
  stack_get s (indent_stack_size s - 1) = Ok top ->
  w < top ->
  w ∈ stack_of s ->
  exists s',
    scan s lx valid_symbols = Ok (true, s', set_result_symbol lx1 DEDENT)
    /\ stack_of s' = filter (fun x => x <= w) (stack_of s)
    /\ last (stack_of s') = Some w
    /\ indent_stack s' = indent_stack s
    /\ current_indent s' = w
    /\ at_line_start s' = false.
Proof.
  exact (scan_aligned_dedent s lx lx1 valid_symbols w top).
Qed.

Lemma three_level_scanner_inv : stack_inv three_level_scanner.
Proof.
  split; [split; [reflexivity | vm_compute; split; discriminate]|].
  split; [reflexivity|].
  change (stack_of three_level_scanner) with [0; 4; 8].
  intros [|[|[|i]]] [|[|[|j]]] x y Hij Hi Hj; simpl in *; try lia;
    try discriminate; injection Hi as <-; injection Hj as <-; lia.
Qed.

Lemma aligned_dedent_pops_to_width_witness :
  exists s',
    scan three_level_scanner (start_lexer [120] 0) indentation_only
    = Ok (true, s', set_result_symbol (start_lexer [120] 0) DEDENT)
    /\ stack_of s' = filter (fun x => x <= 0) (stack_of three_level_scanner)
    /\ last (stack_of s') = Some 0
    /\ indent_stack s' = indent_stack three_level_scanner
    /\ current_indent s' = 0
    /\ at_line_start s' = false.
Proof.
  apply (aligned_dedent_pops_to_width three_level_scanner (start_lexer [120] 0)
           (start_lexer [120] 0) indentation_only 0 8).
  - exact three_level_scanner_inv.
  - unfold measures. repeat apply conj; reflexivity.
  - reflexivity.
  - reflexivity.
  - lia.
  - change (stack_of three_level_scanner) with [0; 4; 8]. left.
Defined.

(** ** Lines without a token of their own *)

Lemma blank_run_not_terminator (ws tl : list Z) :
  Forall (fun c => is_blank c = true) ws ->
  is_terminator (first_char tl) = false ->
  is_terminator (first_char (ws ++ tl)) = false.
Proof.
  intros Hws Htl. destruct ws as [|c ws]; [exact Htl|].
  apply Forall_cons in Hws as [Hc _]. simpl.
  unfold is_blank in Hc. apply orb_prop in Hc as [Hc|Hc];
    apply Z.eqb_eq in Hc; subst; reflexivity.
Qed.

(** X4: at line start, with INDENT or DEDENT acceptable, a line that
    holds only blanks before a line terminator or the end of the input is
    skipped: the call declines at once, [at_line_start] is cleared, the
    stack and [current_indent] stay as they are, and the raw-string block
    is not run even when that kind is acceptable. *)
Theorem blank_line_is_skipped
    (s : Scanner) (lx : TSLexer) (valid_symbols : TokenType -> bool)
    (ws rest : list Z) :
  at_line_start s = true ->
  valid_symbols INDENT || valid_symbols DEDENT = true ->
  valid_symbols NEWLINE && is_terminator (lookahead lx) = false ->
  input lx = ws ++ rest ->
  Forall (fun c => is_blank c = true) ws ->
  is_terminator (first_char rest) = true \/ first_char rest = 0 ->
  exists lx1,
    scan s lx valid_symbols = Ok (false, set_at_line_start s false, lx1)
    /\ input lx1 = rest
    /\ token lx1 = token lx ++ ws
    /\ result_symbol lx1 = result_symbol lx.
Proof.
  intros Hals Hv Hnl Hin Hws Hrest.
  assert (Hnb : is_blank (first_char rest) = false).
  { destruct Hrest as [H|H]; [|rewrite H; reflexivity].
    unfold is_terminator in H. apply orb_prop in H as [H|H];
      apply Z.eqb_eq in H; rewrite H; reflexivity. }
  destruct (skip_whitespace_blank_run lx ws rest Hin Hws Hnb)
    as (lx1 & Hskip & Hin1 & Htok & Hres & _).
  exists lx1. split; [|auto].
  unfold scan. unfold is_terminator in Hnl. rewrite Hnl, Hals, Hv. simpl.
  unfold scan_indentation. rewrite Hskip.
  rewrite (lookahead_first_char lx1), Hin1.
  destruct ((first_char rest =? 47) && (get_column lx1 =? blank_width ws));
    [reflexivity|].
  replace ((first_char rest =? 10) || (first_char rest =? 13) || (first_char rest =? 0))
    with true; [reflexivity|].
  destruct Hrest as [H|H].
  - unfold is_terminator in H. rewrite H. reflexivity.
  - rewrite H. reflexivity.
Qed.

Lemma blank_line_is_skipped_witness :
  exists lx1,
    scan two_level_scanner (start_lexer [32; 9; 10; 120] 0) all_valid
    = Ok (false, set_at_line_start two_level_scanner false, lx1)
    /\ input lx1 = [10; 120]
    /\ token lx1 = token (start_lexer [32; 9; 10; 120] 0) ++ [32; 9]
    /\ result_symbol lx1 = result_symbol (start_lexer [32; 9; 10; 120] 0).
Proof.
  apply (blank_line_is_skipped two_level_scanner (start_lexer [32; 9; 10; 120] 0)
           all_valid [32; 9] [10; 120]).
  - reflexivity.
  - reflexivity.
  - reflexivity.
  - reflexivity.
  - repeat constructor.
  - left. reflexivity.
Defined.

(** X5: a line whose first character after the blanks is a slash is
    skipped as a comment exactly when the column there equals the measured
    width, that is when the column at which the call started equals three
    times the number of tabs in the run.  From column 0 this holds for
    blanks that are all spaces; with a tab among them the call is not a
    skip: it goes on exactly as the comparison of the measured width with
    the stack does on any other line. *)
Theorem comment_line_rule
    (s : Scanner) (lx : TSLexer) (valid_symbols : TokenType -> bool)
    (ws rest : list Z) :
  at_line_start s = true ->
  valid_symbols INDENT || valid_symbols DEDENT = true ->
  input lx = ws ++ 47 :: rest ->
  Forall (fun c => is_blank c = true) ws ->
  exists lx1,
    skip_whitespace (length (input lx)) lx 0 = (blank_width ws, lx1)
    /\ (get_column lx = 3 * tab_count ws ->
        scan s lx valid_symbols = Ok (false, set_at_line_start s false, lx1))
    /\ (get_column lx <> 3 * tab_count ws ->
        measures s lx valid_symbols (blank_width ws) lx1
        /\ scan s lx valid_symbols =
             f ← compare_indent s lx1 valid_symbols (blank_width ws);
             match f with
             | Return b s lx => Ok (b, s, lx)
             | Continue s lx => Ok (scan_tail s lx valid_symbols)
             end).
Proof.
  intros Hals Hv Hin Hws.
  destruct (skip_whitespace_blank_run lx ws (47 :: rest) Hin Hws eq_refl)
    as (lx1 & Hskip & Hin1 & _ & _ & Hcol & Hwidth).
  assert (Hnl : valid_symbols NEWLINE && ((lookahead lx =? 10) || (lookahead lx =? 13))
                = false).
  { rewrite lookahead_first_char, Hin.
    pose proof (blank_run_not_terminator ws (47 :: rest) Hws eq_refl) as H.
    unfold is_terminator in H. rewrite H. apply andb_false_r. }
  pose proof (lookahead_input _ _ _ Hin1) as Hla.
  exists lx1. split; [exact Hskip|]. split.
  - intros Hstart. unfold scan. rewrite Hnl, Hals, Hv. simpl.
    unfold scan_indentation. rewrite Hskip, Hla.
    replace (get_column lx1 =? blank_width ws) with true
      by (symmetry; apply Z.eqb_eq; lia).
    reflexivity.
  - intros Hstart.
    assert (Hm : measures s lx valid_symbols (blank_width ws) lx1).
    { unfold measures. rewrite Hla.
      replace (get_column lx1 =? blank_width ws) with false
        by (symmetry; apply Z.eqb_neq; lia).
      repeat apply conj; auto. }
    split; [exact Hm | exact (scan_measures _ _ _ _ _ Hm)].
Qed.

Lemma comment_line_rule_witness :
  exists lx1,
    skip_whitespace (length (input (start_lexer [9; 47; 47] 0)))
      (start_lexer [9; 47; 47] 0) 0 = (blank_width [9], lx1)
    /\ (get_column (start_lexer [9; 47; 47] 0) = 3 * tab_count [9] ->
        scan (create zero_mem) (start_lexer [9; 47; 47] 0) indentation_only
        = Ok (false, set_at_line_start (create zero_mem) false, lx1))
    /\ (get_column (start_lexer [9; 47; 47] 0) <> 3 * tab_count [9] ->
        measures (create zero_mem) (start_lexer [9; 47; 47] 0) indentation_only
          (blank_width [9]) lx1
        /\ scan (create zero_mem) (start_lexer [9; 47; 47] 0) indentation_only =
             f ← compare_indent (create zero_mem) lx1 indentation_only (blank_width [9]);
             match f with
             | Return b s lx => Ok (b, s, lx)
             | Continue s lx => Ok (scan_tail s lx indentation_only)
             end).
Proof.
  apply (comment_line_rule (create zero_mem) (start_lexer [9; 47; 47] 0)
           indentation_only [9] [47]).
  - reflexivity.
  - reflexivity.
  - reflexivity.
  - repeat constructor.
Defined.

(** ** Calls away from the start of a line *)

(** X6: when [at_line_start] is clear the call never reads or writes the
    indentation stack: it always returns, the array, the depth,
    [current_indent] and the scratch count are unchanged, and a token it
    produces is NEWLINE or the raw-string token, never INDENT or DEDENT. *)
Theorem mid_line_call_keeps_indentation
    (s : Scanner) (lx : TSLexer) (valid_symbols : TokenType -> bool) :
  at_line_start s = false ->
  exists b s' lx',
    scan s lx valid_symbols = Ok (b, s', lx')
    /\ indent_stack s' = indent_stack s
    /\ indent_stack_size s' = indent_stack_size s
    /\ current_indent s' = current_indent s
    /\ hash_count s' = hash_count s
    /\ (b = true ->
        result_symbol lx' = Some NEWLINE
        \/ result_symbol lx' = Some MULTI_LINE_RAW_STRING_LITERAL).
Proof.
  intros Hals. unfold scan.
  destruct (valid_symbols NEWLINE && _).
  - eexists _, _, _. split; [reflexivity|]. simpl. repeat split; auto.
    intros _. left.
    destruct ((lookahead (advance (set_result_symbol lx NEWLINE)) =? 10) && _);
      rewrite ?advance_result_symbol; reflexivity.
  - rewrite Hals. simpl.
    destruct (scan_tail_spec s lx valid_symbols) as (b & s' & lx' & -> & Hs' & _ & Hyes).
    exists b, s', lx'. split; [reflexivity|].
    repeat split; try (destruct Hs' as [-> | ->]; reflexivity).
    intros Hb. right. by destruct (Hyes Hb).
Qed.

Lemma mid_line_call_keeps_indentation_witness :
  exists b s' lx',
    scan mid_line_scanner (start_lexer (spaces 4 ++ [120]) 0) all_valid = Ok (b, s', lx')
    /\ indent_stack s' = indent_stack mid_line_scanner
    /\ indent_stack_size s' = indent_stack_size mid_line_scanner
    /\ current_indent s' = current_indent mid_line_scanner
    /\ hash_count s' = hash_count mid_line_scanner
    /\ (b = true ->
        result_symbol lx' = Some NEWLINE
        \/ result_symbol lx' = Some MULTI_LINE_RAW_STRING_LITERAL).
Proof.
  apply (mid_line_call_keeps_indentation mid_line_scanner
           (start_lexer (spaces 4 ++ [120]) 0) all_valid).
  reflexivity.
Defined.

(** ** States reached from a fresh scanner *)

Lemma scan_hash_count (s s' : Scanner) (lx lx' : TSLexer)
    (valid_symbols : TokenType -> bool) (b : bool) :
  scan s lx valid_symbols = Ok (b, s', lx') -> hash_count s' = hash_count s.
Proof.
  unfold scan.
  destruct (valid_symbols NEWLINE && _); [intros [= _ <- _]; reflexivity|].
  assert (Htail : forall s1 lx1, hash_count s1 = hash_count s ->
            Ok (scan_tail s1 lx1 valid_symbols) = Ok (b, s', lx') ->
            hash_count s' = hash_count s).
  { intros s1 lx1 H1 [= E].
    destruct (scan_tail_spec s1 lx1 valid_symbols) as (b0 & s0 & lx0 & E0 & Hs0 & _).
    rewrite E in E0. injection E0 as _ <- _. destruct Hs0 as [-> | ->]; exact H1. }
  destruct (at_line_start s && _); simpl; [|by apply Htail].
  unfold scan_indentation.
  destruct (skip_whitespace _ _ _) as [w lx1].
  destruct ((lookahead lx1 =? 47) && _); [simpl; intros [= _ <- _]; reflexivity|].
  destruct ((lookahead lx1 =? 10) || _ || _); [simpl; intros [= _ <- _]; reflexivity|].
  destruct (compare_indent s lx1 valid_symbols w) as [f|] eqn:Hcmp; simpl; [|discriminate].
  apply compare_indent_fields in Hcmp as (Hh & _).
  destruct f as [b1 s1 lx2|s1 lx2]; simpl in Hh;
    [intros [= _ <- _]; exact Hh | by apply Htail].
Qed.

(** X7: every state a fresh scanner reaches through scan calls that all
    return satisfies the stack invariant (array of 100 slots, depth
    between 1 and 100, bottom entry 0, entries strictly increasing), and
    its scratch count is still 0: [scan] never writes
    [scanner->hash_count], whatever the allocator left in the array. *)
Theorem reachable_states_invariant
    (uninit : nat -> Z) (calls : list (TSLexer * (TokenType -> bool))) (s : Scanner) :
  scan_calls (create uninit) calls = Ok s ->
  stack_inv s /\ hash_count s = 0.
Proof.
  assert (Hgen : forall s0, stack_inv s0 -> hash_count s0 = 0 ->
            scan_calls s0 calls = Ok s -> stack_inv s /\ hash_count s = 0).
  { induction calls as [|[lx vs] calls IH]; intros s0 Hinv Hh; simpl.
    - intros [= <-]. auto.
    - destruct (scan s0 lx vs) as [[[b s1] lx1]|] eqn:Hscan; simpl; [|discriminate].
      apply IH.
      + exact (scan_preserves_stack_inv _ _ _ _ _ _ Hinv Hscan).
      + rewrite (scan_hash_count _ _ _ _ _ _ Hscan). exact Hh. }
  apply Hgen; [apply create_stack_inv | reflexivity].
Qed.

Lemma reachable_states_invariant_witness :
  stack_inv three_level_scanner /\ hash_count three_level_scanner = 0.
Proof.
  apply (reachable_states_invariant zero_mem
           [indent_call 4; newline_call 5; indent_call 8; newline_call 9]).
  vm_compute. reflexivity.
Defined.

(** X8: on a scanner whose array has 100 slots and whose depth is
    between 1 and 100, the only access of [scan] that can leave the
    array is the push onto a full stack: if a call does not return, the
    depth is 100, the scanner is at line start, INDENT is acceptable, the
    measured width exceeds the top, and the offending index is 100. *)
Theorem scan_faults_only_on_full_push
    (s : Scanner) (lx : TSLexer) (valid_symbols : TokenType -> bool)
    (r : region) (i : Z) :
  stack_bounds s ->
  scan s lx valid_symbols = OutOfBounds r i ->
  r = IndentStack /\ i = STACK_CAPACITY
  /\ indent_stack_size s = STACK_CAPACITY
  /\ at_line_start s = true
  /\ valid_symbols INDENT = true
  /\ exists top, stack_get s (indent_stack_size s - 1) = Ok top /\ top < leading_width lx.
Proof.
  intros Hb. pose proof Hb as [Hlen Hsz]. unfold STACK_CAPACITY in Hsz.
  unfold scan. destruct (valid_symbols NEWLINE && _); [discriminate|].
  destruct (at_line_start s) eqn:Hals; simpl; [|discriminate].
  destruct (valid_symbols INDENT || valid_symbols DEDENT); simpl; [|discriminate].
  unfold scan_indentation, leading_width.
  destruct (skip_whitespace _ _ _) as [w lx1]. simpl.
  destruct ((lookahead lx1 =? 47) && _); [discriminate|].
  destruct ((lookahead lx1 =? 10) || _ || _); [discriminate|].
  unfold compare_indent.
  destruct (stack_get_in_bounds s (indent_stack_size s - 1)) as (top & Htop & _);
    [exact Hlen | unfold STACK_CAPACITY; lia |].
  rewrite Htop. simpl.
  destruct (Z.gtb_spec w top) as [Hgt|Hle]; simpl.
  - destruct (valid_symbols INDENT) eqn:Hv; simpl.
    + destruct (Z.eq_dec (indent_stack_size s) 100) as [Hfull|Hroom].
      * rewrite stack_set_full by exact Hfull. simpl. intros [= <- <-].
        repeat split; auto. exists top. split; [reflexivity | lia].
      * rewrite stack_set_Ok by (auto; unfold STACK_CAPACITY; lia). discriminate.
    + destruct ((w <? top) && valid_symbols DEDENT); [|discriminate].
      destruct (pop_loop_spec (Z.to_nat (indent_stack_size s)) s w Hb ltac:(lia))
        as (k & -> & Hk & _). simpl.
      destruct (stack_get_in_bounds (set_indent_stack_size s k) (k - 1)) as (v & -> & _);
        [exact Hlen | unfold STACK_CAPACITY; lia |].
      simpl. destruct (v =? w); discriminate.
  - destruct ((w <? top) && valid_symbols DEDENT); [|discriminate].
    destruct (pop_loop_spec (Z.to_nat (indent_stack_size s)) s w Hb ltac:(lia))
      as (k & -> & Hk & _). simpl.
    destruct (stack_get_in_bounds (set_indent_stack_size s k) (k - 1)) as (v & -> & _);
      [exact Hlen | unfold STACK_CAPACITY; lia |].
    simpl. destruct (v =? w); discriminate.
Qed.

Lemma scan_faults_only_on_full_push_witness :
  IndentStack = IndentStack /\ 100 = STACK_CAPACITY
  /\ indent_stack_size full_scanner = STACK_CAPACITY
  /\ at_line_start full_scanner = true
  /\ indentation_only INDENT = true
  /\ exists top,
       stack_get full_scanner (indent_stack_size full_scanner - 1) = Ok top
       /\ top < leading_width (start_lexer (spaces 100 ++ [120]) 0).
Proof.
  apply (scan_faults_only_on_full_push full_scanner
           (start_lexer (spaces 100 ++ [120]) 0) indentation_only IndentStack 100).
  - split; [reflexivity | vm_compute; split; discriminate].
  - vm_compute. reflexivity.
Defined.

(** X9: whenever a call compares a measured width with the stack and
    returns, whether it emits INDENT or DEDENT or falls through,
    [current_indent] is the measured width afterwards and
    [at_line_start] is clear. *)
Theorem measured_width_is_cached
    (s s' : Scanner) (lx lx1 lx' : TSLexer) (valid_symbols : TokenType -> bool)
    (w : Z) (b : bool) :
  measures s lx valid_symbols w lx1 ->
  scan s lx valid_symbols = Ok (b, s', lx') ->
  current_indent s' = w /\ at_line_start s' = false.
Proof.
  intros Hm. rewrite (scan_measures _ _ _ _ _ Hm).
  destruct (compare_indent s lx1 valid_symbols w) as [f|] eqn:Hcmp; simpl; [|discriminate].
  apply compare_indent_fields in Hcmp as (_ & Hc & Ha & _).
  destruct f as [b1 s1 lx2|s1 lx2]; simpl in *.
  - intros [= _ <- _]. auto.
  - intros [= E].
    destruct (scan_tail_spec s1 lx2 valid_symbols) as (b0 & s0 & lx0 & E0 & Hs0 & _).
    destruct (scan_tail_frame s1 lx2 valid_symbols) as (_ & _ & Hci).
    rewrite E in E0, Hci. injection E0 as _ <- _. simpl in Hci.
    split; [congruence|]. destruct Hs0 as [-> | ->]; [exact Ha | reflexivity].
Qed.

Lemma measured_width_is_cached_witness :
  current_indent (set_at_line_start (set_current_indent three_level_scanner 6) false) = 6
  /\ at_line_start (set_at_line_start (set_current_indent three_level_scanner 6) false)
     = false.
Proof.
  apply (measured_width_is_cached three_level_scanner _
           (start_lexer (spaces 6 ++ [120]) 0)
           (skip_whitespace 7 (start_lexer (spaces 6 ++ [120]) 0) 0).2
           (skip_whitespace 7 (start_lexer (spaces 6 ++ [120]) 0) 0).2
           (fun t => match t with INDENT => true | _ => false end) 6 false).
  - unfold measures. repeat apply conj; reflexivity.
  - vm_compute. reflexivity.
Defined.

(** ** Raw strings that are not recognized *)

Lemma scan_body_unterminated (q : Z) (n : nat) :
  forall (m : nat) (body : list Z) (fuel : nat) (lx : TSLexer),
    (length body <= m)%nat ->
    input lx = body ->
    0 ∉ body ->
    has_close q n body = false ->
    (length (input lx) <= fuel)%nat ->
    scan_body fuel lx q (Z.of_nat n) = (false, advance_n (length body) lx).
Proof.
  induction m as [|m IH]; intros body fuel lx Hm Hin Hnul Hclose Hfuel.
  - destruct body; [|simpl in Hm; lia]. simpl.
    destruct fuel as [|fuel]; simpl; [reflexivity|].
    rewrite lookahead_first_char, Hin. reflexivity.
  - destruct body as [|c body].
    { apply (IH [] fuel lx); simpl; auto; lia. }
    simpl in Hm.
    destruct fuel as [|fuel]; [rewrite Hin in Hfuel; simpl in Hfuel; lia|].
    assert (Hc0 : c <> 0) by (intros ->; apply Hnul; left).
    assert (Hnul' : 0 ∉ body) by (intros H; apply Hnul; by right).
    simpl in Hclose. apply orb_false_elim in Hclose as [Hhere Hclose].
    pose proof (advance_input _ _ _ Hin) as Hin'.
    assert (Hfuel' : (length (input (advance lx)) <= fuel)%nat).
    { rewrite Hin'. rewrite Hin in Hfuel. simpl in Hfuel. lia. }
    simpl. rewrite (lookahead_input _ _ _ Hin).
    replace (c =? 0) with false by (symmetry; by apply Z.eqb_neq).
    destruct (Z.eqb_spec c q) as [->|Hcq].
    + simpl in Hhere.
      destruct (leading_hashes body) as (j & body' & -> & Hno).
      assert (Hj : (j < n)%nat).
      { destruct (decide (n <= j)%nat) as [Hge|]; [|lia].
        rewrite starts_with_hashes_run in Hhere by exact Hge. discriminate. }
      rewrite Nat2Z.id.
      rewrite (count_closing_run j n (advance lx) 0 (Z.of_nat n) body');
        [| exact Hin' | lia | right; exact Hno | lia].
      replace (0 + Z.of_nat j =? Z.of_nat n) with false by (symmetry; apply Z.eqb_neq; lia).
      destruct (advance_n_spec (hashes j) body' (advance lx) Hin') as (Hin2 & _).
      unfold hashes in Hin2 at 1. rewrite length_replicate in Hin2.
      rewrite length_app in Hm. unfold hashes in Hm. rewrite length_replicate in Hm.
      rewrite (IH body' fuel (advance_n j (advance lx))).
      * f_equal. rewrite length_app. unfold hashes. rewrite length_replicate.
        rewrite (advance_n_add j). reflexivity.
      * lia.
      * exact Hin2.
      * intros H. apply Hnul'. apply elem_of_app. by right.
      * exact (has_close_app_r _ _ _ _ Hclose).
      * rewrite Hin2. rewrite Hin', length_app in Hfuel'. lia.
    + apply (IH body fuel (advance lx));
        [lia | exact Hin' | exact Hnul' | exact Hclose | exact Hfuel'].
Qed.

(** X10: an unterminated raw string is declined only after the whole
    rest of the input has been consumed: after [n >= 1] markers and a
    quote [q], when no [q] followed by [n] markers (and no NUL) occurs
    before the end of the input, the call returns false with the cursor at
    the end of the input, [at_line_start] cleared and no token kind set. *)
Theorem unterminated_raw_string_declines
    (s : Scanner) (lx : TSLexer) (valid_symbols : TokenType -> bool)
    (n : nat) (q : Z) (body : list Z) :
  valid_symbols MULTI_LINE_RAW_STRING_LITERAL = true ->
  at_line_start s && (valid_symbols INDENT || valid_symbols DEDENT) = false ->
  (1 <= n)%nat ->
  q = 34 \/ q = 39 ->
  0 ∉ body ->
  has_close q n body = false ->
  input lx = hashes n ++ q :: body ->
  exists lx',
    scan s lx valid_symbols = Ok (false, set_at_line_start s false, lx')
    /\ input lx' = []
    /\ token lx' = token lx ++ input lx
    /\ result_symbol lx' = result_symbol lx.
Proof.
  intros Hraw Hind Hn Hq Hnul Hclose Hin.
  assert (Hq35 : q <> 35) by (destruct Hq; lia).
  assert (Hla : lookahead lx = 35).
  { destruct n as [|n]; [lia|]. exact (lookahead_input _ _ _ Hin). }
  unfold scan. rewrite Hla, Hind. cbn [Z.eqb Pos.eqb orb]. rewrite andb_false_r.
  cbn [mbind result_bind]. unfold scan_tail. rewrite Hraw. unfold scan_raw_string.
  rewrite (count_hashes_run n _ lx 0 (q :: body) Hin);
    [| unfold no_hash_ahead; simpl; congruence | lia].
  rewrite Z.add_0_l.
  replace (Z.of_nat n =? 0) with false by (symmetry; apply Z.eqb_neq; lia).
  destruct (advance_n_spec (hashes n) _ lx Hin) as (HinA & HtokA & HresA).
  unfold hashes in HinA, HtokA, HresA at 1. rewrite length_replicate in HinA, HtokA, HresA.
  fold (hashes n) in HtokA.
  set (lxA := advance_n n lx) in *.
  rewrite (lookahead_input _ _ _ HinA).
  replace (negb (q =? 34) && negb (q =? 39)) with false
    by (destruct Hq; subst; reflexivity).
  pose proof (advance_input _ _ _ HinA) as Hin2.
  destruct (advance_n_spec [q] _ lxA HinA) as (_ & Htok2 & Hres2).
  cbn [length advance_n] in Htok2, Hres2.
  set (lx2 := advance lxA) in *.
  rewrite (scan_body_unterminated q n (length body) body _ lx2);
    [| lia | exact Hin2 | exact Hnul | exact Hclose | lia].
  assert (Hin2' : input lx2 = body ++ []) by (rewrite Hin2, app_nil_r; reflexivity).
  destruct (advance_n_spec body [] lx2 Hin2') as (HinB & HtokB & HresB).
  eexists. split; [reflexivity|]. split; [exact HinB|]. split.
  - rewrite HtokB, Htok2, HtokA, Hin. rewrite <- !app_assoc. reflexivity.
  - rewrite HresB, Hres2, HresA. reflexivity.
Qed.

Lemma unterminated_raw_string_declines_witness :
  exists lx',
    scan mid_line_scanner (start_lexer (hashes 2 ++ 34 :: [97; 34; 35]) 0) all_valid
    = Ok (false, set_at_line_start mid_line_scanner false, lx')
    /\ input lx' = []
    /\ token lx' = token (start_lexer (hashes 2 ++ 34 :: [97; 34; 35]) 0)
                   ++ input (start_lexer (hashes 2 ++ 34 :: [97; 34; 35]) 0)
    /\ result_symbol lx' = result_symbol (start_lexer (hashes 2 ++ 34 :: [97; 34; 35]) 0).
Proof.
  apply (unterminated_raw_string_declines mid_line_scanner
           (start_lexer (hashes 2 ++ 34 :: [97; 34; 35]) 0) all_valid 2 34 [97; 34; 35]).
  - reflexivity.
  - reflexivity.
  - lia.
  - left. reflexivity.
  - intros H. repeat (apply elem_of_cons in H as [H|H]; [discriminate|]).
    by apply elem_of_nil in H.
  - reflexivity.
  - reflexivity.
Defined.

(** X11: without an opening the raw-string block gives up early and
    leaves the scanner exactly as it was, [at_line_start] included: when
    the run of markers under the cursor is empty, or is not followed by a
    double or single quote, the call returns false having consumed the
    markers and nothing else. *)
Theorem raw_string_needs_markers_and_quote
    (s : Scanner) (lx : TSLexer) (valid_symbols : TokenType -> bool)
    (n : nat) (rest : list Z) :
  valid_symbols MULTI_LINE_RAW_STRING_LITERAL = true ->
  at_line_start s && (valid_symbols INDENT || valid_symbols DEDENT) = false ->
  valid_symbols NEWLINE && is_terminator (lookahead lx) = false ->
  input lx = hashes n ++ rest ->
  no_hash_ahead rest ->
  n = 0%nat \/ (first_char rest <> 34 /\ first_char rest <> 39) ->
  exists lx',
    scan s lx valid_symbols = Ok (false, s, lx')
    /\ input lx' = rest
    /\ token lx' = token lx ++ hashes n
    /\ result_symbol lx' = result_symbol lx.
Proof.
  intros Hraw Hind Hnl Hin Hno Hcase.
  unfold scan. unfold is_terminator in Hnl. rewrite Hnl, Hind.
  cbn [mbind result_bind]. unfold scan_tail. rewrite Hraw. unfold scan_raw_string.
  rewrite (count_hashes_run n _ lx 0 rest Hin Hno) by lia.
  rewrite Z.add_0_l.
  destruct (advance_n_spec (hashes n) _ lx Hin) as (HinA & HtokA & HresA).
  unfold hashes in HinA, HtokA, HresA at 1. rewrite length_replicate in HinA, HtokA, HresA.
  fold (hashes n) in HtokA.
  exists (advance_n n lx). split; [|auto].
  destruct Hcase as [->|[H34 H39]]; [reflexivity|].
  destruct (Z.of_nat n =? 0); [reflexivity|].
  rewrite lookahead_first_char, HinA.
  replace (first_char rest =? 34) with false by (symmetry; by apply Z.eqb_neq).
  replace (first_char rest =? 39) with false by (symmetry; by apply Z.eqb_neq).
  reflexivity.
Qed.

Lemma raw_string_needs_markers_and_quote_witness :
  exists lx',
    scan (create zero_mem) (start_lexer (hashes 3 ++ [120; 34]) 0)
      (fun t => match t with MULTI_LINE_RAW_STRING_LITERAL => true | _ => false end)
    = Ok (false, create zero_mem, lx')
    /\ input lx' = [120; 34]
    /\ token lx' = token (start_lexer (hashes 3 ++ [120; 34]) 0) ++ hashes 3
    /\ result_symbol lx' = result_symbol (start_lexer (hashes 3 ++ [120; 34]) 0).
Proof.
  apply (raw_string_needs_markers_and_quote (create zero_mem)
           (start_lexer (hashes 3 ++ [120; 34]) 0)
           (fun t => match t with MULTI_LINE_RAW_STRING_LITERAL => true | _ => false end)
           3 [120; 34]).
  - reflexivity.
  - reflexivity.
  - reflexivity.
  - reflexivity.
  - unfold no_hash_ahead. simpl. congruence.
  - right. split; simpl; lia.
Defined.

(** ** The serialized form *)

(** X12: every scanner whose depth is between 1 and 100 is serialized
    without reading outside the array, into 7 + 4 * depth bytes, at most
    407: two header bytes, [current_indent], the flag, and four bytes per
    open level. *)
Theorem serialize_size (s : Scanner) :
  stack_bounds s ->
  exists buffer,
    serialize s = Ok buffer
    /\ Z.of_nat (length buffer) = 7 + SIZEOF_INT * indent_stack_size s
    /\ Z.of_nat (length buffer) <= 407
    /\ take 2 buffer = [char_of_int (hash_count s); char_of_int (indent_stack_size s)]
    /\ buffer !! 6%nat = Some (char_of_bool (at_line_start s)).
Proof.
  intros [Hlen Hsz]. unfold STACK_CAPACITY in Hsz.
  unfold tree_sitter_cangjie_external_scanner_serialize, STACK_CAPACITY, SIZEOF_INT.
  rewrite Hlen.
  replace (0 <=? indent_stack_size s) with true by (symmetry; apply Z.leb_le; lia).
  replace (indent_stack_size s <=? 100) with true by (symmetry; apply Z.leb_le; lia).
  cbn [andb Z.leb Z.of_nat Pos.of_succ_nat]. simpl (100 <=? _).
  eexists. split; [reflexivity|].
  assert (Hl : Z.of_nat (length (concat (map bytes_of_int (stack_of s))))
               = 4 * indent_stack_size s).
  { rewrite concat_bytes_of_int_length. unfold stack_of. rewrite length_take. lia. }
  cbn [app bytes_of_int length take lookup list_lookup].
  rewrite !Nat2Z.inj_succ, Hl. repeat split; try reflexivity; lia.
Qed.

Lemma serialize_size_witness :
  exists buffer,
    serialize full_scanner = Ok buffer
    /\ Z.of_nat (length buffer) = 7 + SIZEOF_INT * indent_stack_size full_scanner
    /\ Z.of_nat (length buffer) <= 407
    /\ take 2 buffer = [char_of_int (hash_count full_scanner);
                        char_of_int (indent_stack_size full_scanner)]
    /\ buffer !! 6%nat = Some (char_of_bool (at_line_start full_scanner)).
Proof.
  apply (serialize_size full_scanner).
  split; [reflexivity | vm_compute; split; discriminate].
Defined.

Lemma size_t_nonneg (x : Z) : 0 <= size_t x.
Proof. unfold size_t. apply Z.mod_pos_bound. lia. Qed.

Lemma size_t_small (x : Z) : 0 <= x < 18446744073709551616 -> size_t x = x.
Proof. intros H. unfold size_t. by apply Z.mod_small. Qed.

Lemma deserialize_length_zero
    (char_is_signed : bool) (s : Scanner) (buffer : list byte) :
  deserialize char_is_signed s buffer 0 = Ok s.
Proof.
  unfold tree_sitter_cangjie_external_scanner_deserialize, SIZEOF_INT.
  change (0 >? 0) with false. cbn [mbind result_bind].
  change (0 >? 0) with false. cbn [mbind result_bind].
  change (0 >? 0 + 4) with false. cbn [mbind result_bind].
  change (0 >? 0) with false. cbn [mbind result_bind].
  pose proof (size_t_nonneg (0 + size_t (indent_stack_size s) * 4)) as H.
  replace (0 >? size_t (0 + size_t (indent_stack_size s) * 4)) with false
    by (symmetry; rewrite Z.gtb_ltb; apply Z.ltb_ge; exact H).
  reflexivity.
Qed.

(** X13: with length 0 nothing is read and nothing changes, whatever the
    buffer and the state, a negative or oversized depth included:
    [deserialize] does not reset the scanner to its initial state. *)
Theorem deserialize_empty_keeps_state
    (char_is_signed : bool) (s : Scanner) (buffer : list byte) :
  deserialize char_is_signed s buffer 0 = Ok s.
Proof.
  exact (deserialize_length_zero char_is_signed s buffer).
Qed.

(** ** Reading entries back *)

Lemma buffer_get_Ok (buffer : list byte) (i : Z) (b : byte) :
  0 <= i -> buffer !! Z.to_nat i = Some b -> buffer_get buffer i = Ok b.
Proof.
  intros Hi Hb. unfold buffer_get.
  replace (i <? 0) with false by (symmetry; apply Z.ltb_ge; lia).
  by rewrite Hb.
Qed.

Lemma buffer_get_int_Ok (buffer : list byte) (o : Z) (b0 b1 b2 b3 : byte) :
  0 <= o ->
  buffer !! Z.to_nat o = Some b0 ->
  buffer !! (Z.to_nat o + 1)%nat = Some b1 ->
  buffer !! (Z.to_nat o + 2)%nat = Some b2 ->
  buffer !! (Z.to_nat o + 3)%nat = Some b3 ->
  buffer_get_int buffer o = Ok (int_of_bytes b0 b1 b2 b3).
Proof.
  intros Ho H0 H1 H2 H3. unfold buffer_get_int.
  rewrite (buffer_get_Ok buffer o b0) by assumption.
  rewrite (buffer_get_Ok buffer (o + 1) b1)
    by (try lia; replace (Z.to_nat (o + 1)) with (Z.to_nat o + 1)%nat by lia; assumption).
  rewrite (buffer_get_Ok buffer (o + 2) b2)
    by (try lia; replace (Z.to_nat (o + 2)) with (Z.to_nat o + 2)%nat by lia; assumption).
  rewrite (buffer_get_Ok buffer (o + 3) b3)
    by (try lia; replace (Z.to_nat (o + 3)) with (Z.to_nat o + 3)%nat by lia; assumption).
  reflexivity.
Qed.

Lemma buffer_get_int_in_bounds (buffer : list byte) (o : Z) :
  0 <= o -> o + 4 <= Z.of_nat (length buffer) ->
  exists v, buffer_get_int buffer o = Ok v.
Proof.
  intros Ho Hlen.
  destruct (lookup_lt_is_Some_2 buffer (Z.to_nat o)) as [b0 H0]; [lia|].
  destruct (lookup_lt_is_Some_2 buffer (Z.to_nat o + 1)) as [b1 H1]; [lia|].
  destruct (lookup_lt_is_Some_2 buffer (Z.to_nat o + 2)) as [b2 H2]; [lia|].
  destruct (lookup_lt_is_Some_2 buffer (Z.to_nat o + 3)) as [b3 H3]; [lia|].
  eexists. by apply (buffer_get_int_Ok buffer o b0 b1 b2 b3).
Qed.

Lemma concat_bytes_lookup (es : list Z) (j k : nat) (e : Z) :
  es !! j = Some e -> (k < 4)%nat ->
  concat (map bytes_of_int es) !! (4 * j + k)%nat = bytes_of_int e !! k.
Proof.
  revert es. induction j as [|j IH]; intros [|e0 es] He Hk; try discriminate.
  - injection He as ->. cbn [map concat]. rewrite lookup_app_l by (simpl; lia).
    f_equal.
  - cbn [map concat]. rewrite lookup_app_r by (simpl; lia).
    rewrite bytes_of_int_length.
    replace (4 * S j + k - 4)%nat with (4 * j + k)%nat by lia.
    by apply IH.
Qed.

(** The [j]-th entry written by [serialize] is read back as it was. *)
Lemma buffer_get_int_entry (pre post : list byte) (es : list Z) (j : nat) (e : Z) :
  es !! j = Some e ->
  -2147483648 <= e < 2147483648 ->
  buffer_get_int (pre ++ concat (map bytes_of_int es) ++ post)
    (Z.of_nat (length pre) + SIZEOF_INT * Z.of_nat j) = Ok e.
Proof.
  intros He Hrange. unfold SIZEOF_INT.
  pose proof (lookup_lt_Some _ _ _ He) as Hj.
  assert (Hk : forall k, (k < 4)%nat ->
            (pre ++ concat (map bytes_of_int es) ++ post)
              !! (Z.to_nat (Z.of_nat (length pre) + 4 * Z.of_nat j) + k)%nat
            = bytes_of_int e !! k).
  { intros k Hk. rewrite lookup_app_r by lia.
    replace (Z.to_nat (Z.of_nat (length pre) + 4 * Z.of_nat j) + k - length pre)%nat
      with (4 * j + k)%nat by lia.
    rewrite lookup_app_l by (rewrite concat_bytes_of_int_length; lia).
    by apply concat_bytes_lookup. }
  rewrite (buffer_get_int_Ok _ _ (byte_of_Z e) (byte_of_Z (e / 256))
             (byte_of_Z (e / 65536)) (byte_of_Z (e / 16777216))).
  - f_equal. by apply int_of_bytes_of_int.
  - lia.
  - rewrite <- (Nat.add_0_r (Z.to_nat _)). by rewrite (Hk 0%nat) by lia.
  - by rewrite (Hk 1%nat) by lia.
  - by rewrite (Hk 2%nat) by lia.
  - by rewrite (Hk 3%nat) by lia.
Qed.

(** The copy loop overwrites the slots [i .. i + n - 1] and no other. *)
Lemma copy_stack_spec (vs : list Z) :
  forall (s : Scanner) (buffer : list byte) (offset : Z) (i : nat),
    length (indent_stack s) = 100%nat ->
    (i + length vs <= 100)%nat ->
    (forall j v, vs !! j = Some v ->
       buffer_get_int buffer (offset + SIZEOF_INT * Z.of_nat (i + j)) = Ok v) ->
    copy_stack (length vs) s buffer offset (Z.of_nat i)
    = Ok (set_indent_stack s
            (take i (indent_stack s) ++ vs ++ drop (i + length vs) (indent_stack s))).
Proof.
  induction vs as [|v vs IH]; intros s buffer offset i Hlen Hi Hget.
  - simpl. rewrite Nat.add_0_r, take_drop. by destruct s.
  - cbn [length copy_stack].
    rewrite <- (Nat.add_0_r i) at 1. rewrite (Hget 0%nat v eq_refl).
    cbn [mbind result_bind].
    rewrite stack_set_Ok by (auto; unfold STACK_CAPACITY; simpl in Hi; lia).
    cbn [mbind result_bind]. rewrite Nat2Z.id.
    replace (Z.of_nat i + 1) with (Z.of_nat (S i)) by lia.
    rewrite IH.
    + f_equal. unfold set_indent_stack. cbn [indent_stack hash_count indent_stack_size
                                               current_indent at_line_start].
      f_equal.
      rewrite (take_S_r _ _ v) by (apply list_lookup_insert_eq; simpl in Hi; lia).
      rewrite take_insert_ge by lia.
      rewrite drop_insert_lt by lia.
      rewrite <- app_assoc.
      replace (S i + length vs)%nat with (i + S (length vs))%nat by lia. reflexivity.
    + simpl. by rewrite length_insert.
    + simpl in Hi. lia.
    + intros j w Hj. replace (S i + j)%nat with (i + S j)%nat by lia.
      by apply Hget.
Qed.

Lemma copy_stack_total (n : nat) :
  forall (s : Scanner) (buffer : list byte) (offset : Z) (i : nat),
    length (indent_stack s) = 100%nat ->
    (i + n <= 100)%nat -> 0 <= offset ->
    offset + SIZEOF_INT * Z.of_nat (i + n) <= Z.of_nat (length buffer) ->
    exists s',
      copy_stack n s buffer offset (Z.of_nat i) = Ok s'
      /\ length (indent_stack s') = 100%nat
      /\ indent_stack_size s' = indent_stack_size s.
Proof.
  unfold SIZEOF_INT.
  induction n as [|n IH]; intros s buffer offset i Hlen Hi Ho Hbuf.
  - exists s. auto.
  - cbn [copy_stack].
    destruct (buffer_get_int_in_bounds buffer (offset + SIZEOF_INT * Z.of_nat i))
      as [v ->]; [unfold SIZEOF_INT; lia | unfold SIZEOF_INT; lia |].
    cbn [mbind result_bind].
    rewrite stack_set_Ok by (auto; unfold STACK_CAPACITY; lia).
    cbn [mbind result_bind].
    replace (Z.of_nat i + 1) with (Z.of_nat (S i)) by lia.
    destruct (IH (set_indent_stack s (<[Z.to_nat (Z.of_nat i) := v]> (indent_stack s)))
                buffer offset (S i)) as (s' & -> & Hl & Hs);
      [simpl; by rewrite length_insert | lia | lia | lia |].
    exists s'. auto.
Qed.

(** Past the hundredth entry the copy loop stores outside the array. *)
Lemma copy_stack_overflow (n : nat) :
  forall (s : Scanner) (buffer : list byte) (offset : Z) (i : nat),
    length (indent_stack s) = 100%nat ->
    (i <= 100)%nat -> (100 < i + n)%nat -> 0 <= offset ->
    offset + SIZEOF_INT * Z.of_nat (i + n) <= Z.of_nat (length buffer) ->
    copy_stack n s buffer offset (Z.of_nat i) = OutOfBounds IndentStack STACK_CAPACITY.
Proof.
  unfold SIZEOF_INT.
  induction n as [|n IH]; intros s buffer offset i Hlen Hi Hover Ho Hbuf; [lia|].
  cbn [copy_stack].
  destruct (buffer_get_int_in_bounds buffer (offset + SIZEOF_INT * Z.of_nat i))
    as [v ->]; [unfold SIZEOF_INT; lia | unfold SIZEOF_INT; lia |].
  cbn [mbind result_bind].
  destruct (decide (i = 100%nat)) as [->|Hne].
  - reflexivity.
  - rewrite stack_set_Ok by (auto; unfold STACK_CAPACITY; lia).
    cbn [mbind result_bind].
    replace (Z.of_nat i + 1) with (Z.of_nat (S i)) by lia.
    apply IH; [simpl; by rewrite length_insert | lia | lia | lia | lia].
Qed.

(** X14: the round trip through [serialize] and [deserialize] restores
    the whole stack as soon as the buffer handed back is at least one byte
    longer than what [serialize] wrote: with any non-empty padding behind
    the serialized bytes, the depth, the flag and every entry (each an
    [int]) of the original state are read back into the target scanner,
    and [current_indent] and a scratch count below 128 as well. *)
Theorem roundtrip_with_spare_byte
    (char_is_signed : bool) (s t : Scanner) (buffer extra : list byte) :
  stack_bounds s ->
  length (indent_stack t) = 100%nat ->
  Forall (fun e => -2147483648 <= e < 2147483648) (stack_of s) ->
  extra <> [] ->
  serialize s = Ok buffer ->
  exists t',
    deserialize char_is_signed t (buffer ++ extra) (Z.of_nat (length (buffer ++ extra)))
    = Ok t'
    /\ stack_of t' = stack_of s
    /\ indent_stack_size t' = indent_stack_size s
    /\ at_line_start t' = at_line_start s
    /\ (-2147483648 <= current_indent s < 2147483648 ->
        current_indent t' = current_indent s)
    /\ (0 <= hash_count s < 128 -> hash_count t' = hash_count s).
Proof.
  intros Hb Ht Hrange Hextra. pose proof Hb as [Hlen Hsz]. unfold STACK_CAPACITY in Hsz.
  unfold tree_sitter_cangjie_external_scanner_serialize, STACK_CAPACITY.
  destruct (Z.leb_spec 0 (indent_stack_size s)); [|lia].
  destruct (Z.leb_spec (indent_stack_size s) 100); [|lia].
  destruct (Z.leb_spec 100 (Z.of_nat (length (indent_stack s)))); [|lia].
  cbn [andb]. intros [= <-].
  pose proof (stack_of_length s Hb) as Hn.
  set (tail := concat (map bytes_of_int (stack_of s))).
  assert (Htail : Z.of_nat (length tail) = 4 * indent_stack_size s).
  { unfold tail. rewrite concat_bytes_of_int_length. lia. }
  assert (Hex : (1 <= length extra)%nat) by (destruct extra; [congruence | simpl; lia]).
  cbn [app bytes_of_int length]. rewrite length_app, !Nat2Z.inj_succ, Nat2Z.inj_add, Htail.
  rewrite deserialize_with_header by lia.
  cbn [indent_stack_size indent_stack at_line_start].
  rewrite int_of_char_small by lia.
  rewrite (size_t_small (indent_stack_size s)) by lia.
  rewrite size_t_small by (unfold SIZEOF_INT; lia).
  match goal with
  | |- context [?a >? ?b] =>
      replace (a >? b) with true by (symmetry; apply Z.gtb_lt; unfold SIZEOF_INT; lia)
  end.
  replace (indent_stack_size s <? 0) with false by (symmetry; apply Z.ltb_ge; lia).
  rewrite <- Hn.
  match goal with
  | |- context [copy_stack _ ?t0 ?buf 7 0] =>
      pose proof (copy_stack_spec (stack_of s) t0 buf 7 0%nat) as Hcopy
  end.
  change (Z.of_nat 0) with 0 in Hcopy. rewrite Hcopy; clear Hcopy.
  - eexists. split; [reflexivity|].
    cbn [take app Nat.add]. split; [|split; [reflexivity|split; [|split]]].
    + unfold stack_of at 1. cbn [indent_stack_size indent_stack set_indent_stack].
      change (take 0 (indent_stack t)) with (@nil Z). cbn [app].
      rewrite <- Hn. by rewrite take_app_length.
    + cbn [at_line_start set_indent_stack]. unfold bool_of_char, int_of_char.
      destruct (at_line_start s), char_is_signed; reflexivity.
    + cbn [current_indent set_indent_stack]. apply int_of_bytes_of_int.
    + cbn [hash_count set_indent_stack]. apply int_of_char_small.
  - exact Ht.
  - simpl. lia.
  - intros j v Hj. rewrite Forall_lookup in Hrange.
    exact (buffer_get_int_entry
             [char_of_int (hash_count s); char_of_int (indent_stack_size s);
              byte_of_Z (current_indent s); byte_of_Z (current_indent s / 256);
              byte_of_Z (current_indent s / 65536);
              byte_of_Z (current_indent s / 16777216);
              char_of_bool (at_line_start s)]
             extra (stack_of s) j v Hj (Hrange j v Hj)).
Qed.

Lemma roundtrip_with_spare_byte_witness :
  exists t',
    deserialize true (create zero_mem)
      ([x00; x02; x04; x00; x00; x00; x01; x00; x00; x00; x00; x04; x00; x00; x00]
       ++ [xff])
      (Z.of_nat (length
         ([x00; x02; x04; x00; x00; x00; x01; x00; x00; x00; x00; x04; x00; x00; x00]
          ++ [xff])))
    = Ok t'
    /\ stack_of t' = stack_of two_level_scanner
    /\ indent_stack_size t' = indent_stack_size two_level_scanner
    /\ at_line_start t' = at_line_start two_level_scanner
    /\ (-2147483648 <= current_indent two_level_scanner < 2147483648 ->
        current_indent t' = current_indent two_level_scanner)
    /\ (0 <= hash_count two_level_scanner < 128 ->
        hash_count t' = hash_count two_level_scanner).
Proof.
  apply (roundtrip_with_spare_byte true two_level_scanner (create zero_mem)
           [x00; x02; x04; x00; x00; x00; x01; x00; x00; x00; x00; x04; x00; x00; x00]
           [xff]).
  - split; [reflexivity | vm_compute; split; discriminate].
  - reflexivity.
  - change (stack_of two_level_scanner) with [0; 4]. repeat constructor; lia.
  - discriminate.
  - reflexivity.
Defined.

(** ** Buffers that [serialize] did not write *)

Lemma int_of_char_range (char_is_signed : bool) (b : byte) :
  -128 <= int_of_char char_is_signed b <= 255.
Proof.
  unfold int_of_char. pose proof (Z_of_byte_range b).
  destruct char_is_signed; simpl; [|lia].
  destruct (Z.leb_spec 128 (Z_of_byte b)); lia.
Qed.

(** Reading a buffer of three to six bytes: [current_indent] is skipped
    and the third byte is taken for the flag. *)
Lemma deserialize_short (char_is_signed : bool) (t : Scanner)
    (b0 b1 b2 : byte) (tail : list byte) (len : Z) :
  3 <= len <= 6 ->
  let buffer := b0 :: b1 :: b2 :: tail in
  let t' := mkScanner (int_of_char char_is_signed b0) (indent_stack t)
              (int_of_char char_is_signed b1) (current_indent t)
              (bool_of_char char_is_signed b2) in
  deserialize char_is_signed t buffer len
  = if len >? size_t (3 + size_t (indent_stack_size t') * SIZEOF_INT) then
      if indent_stack_size t' <? 0 then OutOfBounds Buffer (3 + len)
      else copy_stack (Z.to_nat (indent_stack_size t')) t' buffer 3 0
    else Ok t'.
Proof.
  intros Hlen buffer t'.
  unfold tree_sitter_cangjie_external_scanner_deserialize, SIZEOF_INT.
  replace (len >? 0) with true by (symmetry; apply Z.gtb_lt; lia).
  change (buffer_get buffer 0) with (Ok b0). cbn [mbind result_bind].
  change (0 + 1) with 1.
  replace (len >? 1) with true by (symmetry; apply Z.gtb_lt; lia).
  change (buffer_get buffer 1) with (Ok b1). cbn [mbind result_bind].
  change (1 + 1) with 2. change (2 + 4) with 6.
  replace (len >? 6) with false by (symmetry; rewrite Z.gtb_ltb; apply Z.ltb_ge; lia).
  cbn [mbind result_bind].
  replace (len >? 2) with true by (symmetry; apply Z.gtb_lt; lia).
  change (buffer_get buffer 2) with (Ok b2). cbn [mbind result_bind].
  change (2 + 1) with 3. reflexivity.
Qed.

Lemma deserialize_one_byte (char_is_signed : bool) (s : Scanner) (b0 : byte) :
  0 <= indent_stack_size s <= 100 ->
  deserialize char_is_signed s [b0] 1
  = Ok (set_hash_count s (int_of_char char_is_signed b0)).
Proof.
  intros Hsz. unfold tree_sitter_cangjie_external_scanner_deserialize, SIZEOF_INT.
  change (1 >? 0) with true. change (buffer_get [b0] 0) with (Ok b0).
  cbn [mbind result_bind]. change (0 + 1) with 1.
  change (1 >? 1) with false. cbn [mbind result_bind].
  change (1 >? 1 + 4) with false. cbn [mbind result_bind].
  change (1 >? 1) with false. cbn [mbind result_bind].
  cbn [indent_stack_size set_hash_count].
  rewrite (size_t_small (indent_stack_size s)) by lia.
  rewrite size_t_small by lia.
  replace (1 >? 1 + indent_stack_size s * 4) with false
    by (symmetry; rewrite Z.gtb_ltb; apply Z.ltb_ge; lia).
  reflexivity.
Qed.

(** X15: a buffer whose depth byte, when it has one, lies between 0 and
    100 is deserialized, with its true length, without any access outside
    the buffer or the array, whatever its length and other bytes; the
    scanner that results has its 100 slots and a depth between 0 and
    100. *)
Theorem deserialize_stays_in_bounds
    (char_is_signed : bool) (s : Scanner) (buffer : list byte) :
  length (indent_stack s) = 100%nat ->
  0 <= indent_stack_size s <= STACK_CAPACITY ->
  (forall b1, buffer !! 1%nat = Some b1 ->
              0 <= int_of_char char_is_signed b1 <= STACK_CAPACITY) ->
  exists s',
    deserialize char_is_signed s buffer (Z.of_nat (length buffer)) = Ok s'
    /\ length (indent_stack s') = 100%nat
    /\ 0 <= indent_stack_size s' <= STACK_CAPACITY.
Proof.
  unfold STACK_CAPACITY. intros Hlen Hsz Hdepth.
  destruct buffer as [|b0 [|b1 [|b2 tail]]].
  - exists s. split; [apply deserialize_length_zero | auto].
  - eexists. split; [apply deserialize_one_byte; lia|]. auto.
  - eexists. split; [apply deserialize_two_header_bytes|].
    simpl. split; [exact Hlen | apply Hdepth; reflexivity].
  - specialize (Hdepth b1 eq_refl).
    destruct (decide (length tail <= 3)%nat) as [Hshort|Hlong].
    + rewrite deserialize_short by (simpl; lia).
      cbn [indent_stack_size].
      rewrite (size_t_small (int_of_char char_is_signed b1)) by lia.
      rewrite size_t_small by (unfold SIZEOF_INT; lia).
      unfold SIZEOF_INT.
      destruct (Z.gtb_spec (Z.of_nat (length (b0 :: b1 :: b2 :: tail)))
                  (3 + int_of_char char_is_signed b1 * 4)) as [Hgt|Hle].
      * assert (Hd0 : int_of_char char_is_signed b1 = 0) by (simpl in Hgt; lia).
        rewrite Hd0. eexists. split; [reflexivity|]. simpl. split; [exact Hlen | lia].
      * eexists. split; [reflexivity|]. simpl. auto.
    + destruct tail as [|i1 [|i2 [|i3 [|flag tail]]]]; simpl in Hlong; try lia.
      rewrite deserialize_with_header by (simpl; lia).
      cbn [indent_stack_size].
      rewrite (size_t_small (int_of_char char_is_signed b1)) by lia.
      rewrite size_t_small by (unfold SIZEOF_INT; lia).
      unfold SIZEOF_INT.
      match goal with
      | |- context [?a >? ?b] => destruct (Z.gtb_spec a b) as [Hgt|Hle]
      end.
      * replace (int_of_char char_is_signed b1 <? 0) with false
          by (symmetry; apply Z.ltb_ge; lia).
        match goal with
        | |- context [copy_stack ?n ?t0 ?buf 7 0] =>
            destruct (copy_stack_total n t0 buf 7 0%nat) as (s' & Hc & Hl & Hs);
              [exact Hlen | lia | lia | unfold SIZEOF_INT; lia |]
        end.
        change (Z.of_nat 0) with 0 in Hc. rewrite Hc.
        exists s'. split; [reflexivity|]. split; [exact Hl|].
        rewrite Hs. simpl. exact Hdepth.
      * eexists. split; [reflexivity|]. simpl. auto.
Qed.

Lemma deserialize_stays_in_bounds_witness :
  exists s',
    deserialize true (create zero_mem) [xff; x00; xff; xff; xff]
      (Z.of_nat (length [xff; x00; xff; xff; xff])) = Ok s'
    /\ length (indent_stack s') = 100%nat
    /\ 0 <= indent_stack_size s' <= STACK_CAPACITY.
Proof.
  apply (deserialize_stays_in_bounds true (create zero_mem) [xff; x00; xff; xff; xff]).
  - reflexivity.
  - vm_compute. split; discriminate.
  - intros b1 [= <-]. vm_compute. split; discriminate.
Defined.

(** X16: the depth byte is not checked against the capacity of the
    array: when it exceeds 100 and the buffer holds more than
    7 + 4 * depth bytes, the copy of the entries stores past the end of
    the array, at index 100. *)
Theorem deserialize_depth_over_capacity
    (char_is_signed : bool) (t : Scanner)
    (b0 b1 i0 i1 i2 i3 flag : byte) (tail : list byte) :
  length (indent_stack t) = 100%nat ->
  STACK_CAPACITY < int_of_char char_is_signed b1 ->
  7 + SIZEOF_INT * int_of_char char_is_signed b1
  < Z.of_nat (length (b0 :: b1 :: i0 :: i1 :: i2 :: i3 :: flag :: tail)) ->
  deserialize char_is_signed t (b0 :: b1 :: i0 :: i1 :: i2 :: i3 :: flag :: tail)
    (Z.of_nat (length (b0 :: b1 :: i0 :: i1 :: i2 :: i3 :: flag :: tail)))
  = OutOfBounds IndentStack STACK_CAPACITY.
Proof.
  unfold STACK_CAPACITY, SIZEOF_INT. intros Hlen Hd Hbuf.
  pose proof (int_of_char_range char_is_signed b1) as Hr.
  rewrite deserialize_with_header by (simpl; lia).
  cbn [indent_stack_size].
  rewrite (size_t_small (int_of_char char_is_signed b1)) by lia.
  rewrite size_t_small by (unfold SIZEOF_INT; lia).
  unfold SIZEOF_INT.
  match goal with
  | |- context [?a >? ?b] =>
      replace (a >? b) with true by (symmetry; apply Z.gtb_lt; lia)
  end.
  replace (int_of_char char_is_signed b1 <? 0) with false
    by (symmetry; apply Z.ltb_ge; lia).
  match goal with
  | |- context [copy_stack ?n ?t0 ?buf 7 0] =>
      pose proof (copy_stack_overflow n t0 buf 7 0%nat) as Hc
  end.
  change (Z.of_nat 0) with 0 in Hc. apply Hc;
    [exact Hlen | lia | lia | lia | unfold SIZEOF_INT; lia].
Qed.

Lemma deserialize_depth_over_capacity_witness :
  deserialize true (create zero_mem)
    (x65 :: x65 :: x65 :: x65 :: x65 :: x65 :: x65 :: replicate 405 x65)
    (Z.of_nat (length
       (x65 :: x65 :: x65 :: x65 :: x65 :: x65 :: x65 :: replicate 405 x65)))
  = OutOfBounds IndentStack STACK_CAPACITY.
Proof.
  apply (deserialize_depth_over_capacity true (create zero_mem)
           x65 x65 x65 x65 x65 x65 x65 (replicate 405 x65)).
  - reflexivity.
  - vm_compute. reflexivity.
  - vm_compute. reflexivity.
Defined.

(** X17: a depth byte of 0 is accepted as it is, and the next call that
    compares a measured width with the stack then reads the entry at
    index -1, in front of the array. *)
Theorem depth_zero_reads_below_array
    (char_is_signed : bool) (s s0 : Scanner) (b0 : byte)
    (lx lx1 : TSLexer) (valid_symbols : TokenType -> bool) (w : Z) :
  deserialize char_is_signed s [b0; x00] 2 = Ok s0 ->
  measures s0 lx valid_symbols w lx1 ->
  indent_stack_size s0 = 0
  /\ scan s0 lx valid_symbols = OutOfBounds IndentStack (-1).
Proof.
  rewrite deserialize_two_header_bytes. intros [= <-] Hm.
  assert (Hz : int_of_char char_is_signed x00 = 0) by (destruct char_is_signed; reflexivity).
  split; [exact Hz|].
  rewrite (scan_measures _ _ _ _ _ Hm). unfold compare_indent, stack_get.
  cbn [indent_stack_size set_indent_stack_size]. rewrite Hz. reflexivity.
Qed.

Lemma depth_zero_reads_below_array_witness :
  indent_stack_size (set_indent_stack_size (set_hash_count (create zero_mem) 0) 0) = 0
  /\ scan (set_indent_stack_size (set_hash_count (create zero_mem) 0) 0)
       (start_lexer [120] 0) indentation_only
     = OutOfBounds IndentStack (-1).
Proof.
  apply (depth_zero_reads_below_array true (create zero_mem) _ x00
           (start_lexer [120] 0) (start_lexer [120] 0) indentation_only 0).
  - reflexivity.
  - unfold measures. repeat apply conj; reflexivity.
Defined.

(** ** Opening and closing a level *)

Lemma measures_at_line_start (s s' : Scanner) (lx lx1 : TSLexer)
    (valid_symbols : TokenType -> bool) (w : Z) :
  measures s lx valid_symbols w lx1 -> at_line_start s' = true ->
  measures s' lx valid_symbols w lx1.
Proof.
  intros (H1 & _ & H3) H. unfold measures. auto.
Qed.

Lemma two_level_scanner_inv : stack_inv two_level_scanner.
Proof.
  split; [split; [reflexivity | vm_compute; split; discriminate]|].
  split; [reflexivity|].
  change (stack_of two_level_scanner) with [0; 4].
  intros [|[|i]] [|[|j]] x y Hij Hi Hj; simpl in *; try lia;
    try discriminate; injection Hi as <-; injection Hj as <-; lia.
Qed.

(** X18: closing a level undoes opening it.  After an INDENT that pushes
    a width [w] above the top, a later call at line start that measures
    the former top with DEDENT acceptable emits DEDENT and leaves the
    stack exactly as it was before the INDENT. *)
Theorem indent_then_dedent_restores_stack
    (s : Scanner) (lxA lxA1 lxB lxB1 : TSLexer)
    (validA validB : TokenType -> bool) (w top : Z) :
  stack_inv s ->
  indent_stack_size s < STACK_CAPACITY ->
  stack_get s (indent_stack_size s - 1) = Ok top ->
  measures s lxA validA w lxA1 ->
  validA INDENT = true ->
  top < w ->
  measures s lxB validB top lxB1 ->
  validB DEDENT = true ->
  exists s1 s2,
    scan s lxA validA = Ok (true, s1, set_result_symbol lxA1 INDENT)
    /\ scan (set_at_line_start s1 true) lxB validB
       = Ok (true, s2, set_result_symbol lxB1 DEDENT)
    /\ stack_of s2 = stack_of s.
Proof.
  intros Hinv Hroom Htop HmA HvA Hlt HmB HvB.
  pose proof Hinv as (Hb & Hbot & Hinc). pose proof Hb as [Hlen Hsz].
  unfold STACK_CAPACITY in Hsz, Hroom.
  destruct (scan_indent_push s lxA lxA1 validA w top Hlen HmA HvA Htop Hlt Hroom)
    as (s1 & Hscan1 & Hview1 & Hsize1 & _).
  pose proof (scan_preserves_stack_inv _ _ _ _ _ _ Hinv Hscan1) as Hinv1.
  assert (Hinv1' : stack_inv (set_at_line_start s1 true))
    by (by apply (stack_inv_frame s1)).
  pose proof (stack_of_length s Hb) as Hn.
  apply stack_get_Ok in Htop as [_ Htop].
  assert (Htop_in : stack_of s !! Z.to_nat (indent_stack_size s - 1) = Some top)
    by (rewrite stack_of_lookup by lia; exact Htop).
  assert (Hview1' : stack_of (set_at_line_start s1 true) = stack_of s ++ [w])
    by exact Hview1.
  assert (Htop1 : stack_get (set_at_line_start s1 true)
                    (indent_stack_size (set_at_line_start s1 true) - 1) = Ok w).
  { apply stack_get_Ok. cbn [indent_stack_size set_at_line_start indent_stack].
    rewrite Hsize1. split; [unfold STACK_CAPACITY; lia|].
    replace (indent_stack_size s + 1 - 1) with (indent_stack_size s) by lia.
    rewrite <- (stack_of_lookup s1) by lia.
    rewrite Hview1, lookup_app_r by lia.
    by replace (Z.to_nat (indent_stack_size s) - length (stack_of s))%nat with 0%nat by lia. }
  destruct (scan_aligned_dedent (set_at_line_start s1 true) lxB lxB1 validB top w)
    as (s2 & Hscan2 & Hview2 & _); auto.
  - by apply (measures_at_line_start s).
  - rewrite Hview1'. apply elem_of_app. left.
    by apply (list_elem_of_lookup_2 _ (Z.to_nat (indent_stack_size s - 1))).
  - exists s1, s2. split; [exact Hscan1|]. split; [exact Hscan2|].
    rewrite Hview2, Hview1'. apply filter_le_split.
    + apply Forall_lookup. intros i x Hi.
      pose proof (lookup_lt_Some _ _ _ Hi) as Hilt.
      apply (increasing_le (stack_of s) i (Z.to_nat (indent_stack_size s - 1)));
        [assumption | lia | assumption..].
    + repeat constructor. exact Hlt.
Qed.

Lemma indent_then_dedent_restores_stack_witness :
  exists s1 s2,
    scan two_level_scanner (start_lexer (spaces 8 ++ [120]) 0) indentation_only
    = Ok (true, s1,
          set_result_symbol (skip_whitespace 9 (start_lexer (spaces 8 ++ [120]) 0) 0).2
            INDENT)
    /\ scan (set_at_line_start s1 true) (start_lexer (spaces 4 ++ [121]) 0) all_valid
       = Ok (true, s2,
             set_result_symbol (skip_whitespace 5 (start_lexer (spaces 4 ++ [121]) 0) 0).2
               DEDENT)
    /\ stack_of s2 = stack_of two_level_scanner.
Proof.
  apply (indent_then_dedent_restores_stack two_level_scanner
           (start_lexer (spaces 8 ++ [120]) 0)
           (skip_whitespace 9 (start_lexer (spaces 8 ++ [120]) 0) 0).2
           (start_lexer (spaces 4 ++ [121]) 0)
           (skip_whitespace 5 (start_lexer (spaces 4 ++ [121]) 0) 0).2
           indentation_only all_valid 8 4).
  - exact two_level_scanner_inv.
  - reflexivity.
  - reflexivity.
  - unfold measures. repeat apply conj; reflexivity.
  - reflexivity.
  - lia.
  - unfold measures. repeat apply conj; reflexivity.
  - reflexivity.
Defined.

(** ** What can change the stack *)

Lemma pop_loop_size (fuel : nat) (s s' : Scanner) (w : Z) :
  pop_loop fuel s w = Ok s' -> indent_stack_size s' <= indent_stack_size s.
Proof.
  revert s. induction fuel as [|fuel IH]; intros s; simpl.
  - intros [= <-]. lia.
  - destruct (indent_stack_size s >? 1); [|intros [= <-]; lia].
    destruct (stack_get s (indent_stack_size s - 1)) as [top|]; simpl; [|discriminate].
    destruct (top >? w); [|intros [= <-]; lia].
    intros H. apply IH in H. simpl in H. lia.
Qed.

Lemma compare_indent_stack_change (s : Scanner) (lx : TSLexer)
    (valid_symbols : TokenType -> bool) (w : Z) (f : flow) :
  compare_indent s lx valid_symbols w = Ok f ->
  (indent_stack (flow_state f) = indent_stack s
   /\ indent_stack_size (flow_state f) <= indent_stack_size s)
  \/ (f = Return true (flow_state f) (set_result_symbol lx INDENT)
      /\ indent_stack_size (flow_state f) = indent_stack_size s + 1
      /\ indent_stack (flow_state f)
         = <[Z.to_nat (indent_stack_size s) := w]> (indent_stack s)).
Proof.
  unfold compare_indent.
  destruct (stack_get s (indent_stack_size s - 1)) as [top|]; simpl; [|discriminate].
  destruct ((w >? top) && valid_symbols INDENT).
  - unfold stack_set. destruct (_ && _ && _); simpl; [|discriminate].
    intros [= <-]. right. simpl. auto.
  - intros H. left. destruct ((w <? top) && valid_symbols DEDENT).
    + destruct (pop_loop _ s w) as [s1|] eqn:Hpop; simpl in *; [|discriminate].
      pose proof (pop_loop_size _ _ _ _ Hpop) as Hsize.
      apply pop_loop_fields in Hpop as (Harr & _).
      destruct (stack_get s1 (indent_stack_size s1 - 1)) as [v|]; simpl in *; [|discriminate].
      destruct (v =? w); simpl in *; injection H as <-; simpl; auto.
    + simpl in H. injection H as <-. simpl. split; [reflexivity | lia].
Qed.

(** X19: the array is written by INDENT and by nothing else.  After any
    call that returns, either the array is as before and the depth has
    not grown (it shrinks only in the dedent branch), or the call emitted
    INDENT, the depth grew by exactly one and the one slot written is the
    former depth, now holding [current_indent]. *)
Theorem stack_written_only_by_indent
    (s s' : Scanner) (lx lx' : TSLexer) (valid_symbols : TokenType -> bool) (b : bool) :
  scan s lx valid_symbols = Ok (b, s', lx') ->
  (indent_stack s' = indent_stack s /\ indent_stack_size s' <= indent_stack_size s)
  \/ (b = true /\ result_symbol lx' = Some INDENT
      /\ indent_stack_size s' = indent_stack_size s + 1
      /\ indent_stack s'
         = <[Z.to_nat (indent_stack_size s) := current_indent s']> (indent_stack s)).
Proof.
  unfold scan.
  destruct (valid_symbols NEWLINE && _).
  { intros [= _ <- _]. left. simpl. split; [reflexivity | lia]. }
  assert (Htail : forall s1 lx1,
            indent_stack s1 = indent_stack s ->
            indent_stack_size s1 <= indent_stack_size s ->
            Ok (scan_tail s1 lx1 valid_symbols) = Ok (b, s', lx') ->
            indent_stack s' = indent_stack s /\ indent_stack_size s' <= indent_stack_size s).
  { intros s1 lx1 Ha Hs [= E].
    destruct (scan_tail_frame s1 lx1 valid_symbols) as (Ha' & Hs' & _).
    rewrite E in Ha', Hs'. simpl in Ha', Hs'. split; [congruence | lia]. }
  destruct (at_line_start s && _); simpl; [|intros H; left; apply (Htail s lx); auto; lia].
  unfold scan_indentation.
  destruct (skip_whitespace _ _ _) as [w lx1].
  destruct ((lookahead lx1 =? 47) && _).
  { simpl. intros [= _ <- _]. left. simpl. split; [reflexivity | lia]. }
  destruct ((lookahead lx1 =? 10) || _ || _).
  { simpl. intros [= _ <- _]. left. simpl. split; [reflexivity | lia]. }
  destruct (compare_indent s lx1 valid_symbols w) as [f|] eqn:Hcmp; simpl; [|discriminate].
  pose proof (compare_indent_fields _ _ _ _ _ Hcmp) as (_ & Hci & _).
  destruct (compare_indent_stack_change _ _ _ _ _ Hcmp) as [[Ha Hs]|(Hf & Hs & Ha)].
  - destruct f as [b1 s1 lx2|s1 lx2]; simpl in *.
    + intros [= _ <- _]. left. auto.
    + intros H. left. by apply (Htail s1 lx2).
  - rewrite Hf. intros [= <- <- <-]. right. rewrite Hci. simpl. auto.
Qed.

Lemma stack_written_only_by_indent_witness :
  (indent_stack (set_at_line_start (set_current_indent
                   (set_indent_stack_size three_level_scanner 1) 0) false)
   = indent_stack three_level_scanner
   /\ indent_stack_size (set_at_line_start (set_current_indent
                           (set_indent_stack_size three_level_scanner 1) 0) false)
      <= indent_stack_size three_level_scanner)
  \/ (true = true /\ result_symbol (set_result_symbol (start_lexer [120] 0) DEDENT)
                     = Some INDENT
      /\ indent_stack_size (set_at_line_start (set_current_indent
                              (set_indent_stack_size three_level_scanner 1) 0) false)
         = indent_stack_size three_level_scanner + 1
      /\ indent_stack (set_at_line_start (set_current_indent
                         (set_indent_stack_size three_level_scanner 1) 0) false)
         = <[Z.to_nat (indent_stack_size three_level_scanner)
             := current_indent (set_at_line_start (set_current_indent
                  (set_indent_stack_size three_level_scanner 1) 0) false)]>
             (indent_stack three_level_scanner)).
Proof.
  apply (stack_written_only_by_indent three_level_scanner _ (start_lexer [120] 0)
           (set_result_symbol (start_lexer [120] 0) DEDENT) indentation_only true).
  vm_compute. reflexivity.
Defined.
